(** * Draggable accordion: the tree mutation engine

    A shallow embedding of the pure tree algorithms of the draggable menu
    component (the direct tree surgery of the drag-and-drop variant, the
    flatten/rebuild variant with promote and demote, and the page's
    remove-by-id helper), together with the properties they satisfy. *)

From stdpp Require Import base option list strings gmap.

Open Scope string_scope.
Open Scope list_scope.
Open Scope nat_scope.

Set Warnings "-register-all".

(** ** Data model *)

(** [interface MenuItem { id: string; label: string; children?: MenuItem[] }].
    An absent [children] field is [None]; an explicit array, possibly empty,
    is [Some]. *)
Inductive MenuItem : Type :=
  mkItem (id : string) (label : string) (children : option (list MenuItem)).

Definition item_id (n : MenuItem) : string :=
  match n with mkItem i _ _ => i end.

Definition item_label (n : MenuItem) : string :=
  match n with mkItem _ l _ => l end.

Definition item_children (n : MenuItem) : option (list MenuItem) :=
  match n with mkItem _ _ c => c end.

(** [node.children || []] *)
Definition children_or_nil (n : MenuItem) : list MenuItem :=
  default [] (item_children n).

(** The drop relation of the tree-surgery variant. *)
Inductive Position : Type := before | after | inside.

(** Structural induction over the nested type. *)
Section MenuItem_induction.
Variable P : MenuItem → Prop.
Hypothesis Hleaf : ∀ i l, P (mkItem i l None).
Hypothesis Hnode : ∀ i l cs, Forall P cs → P (mkItem i l (Some cs)).

Fixpoint MenuItem_nested_ind (n : MenuItem) : P n :=
  match n with
  | mkItem i l None => Hleaf i l
  | mkItem i l (Some cs) =>
      Hnode i l cs
        ((fix all (t : list MenuItem) : Forall P t :=
            match t with
            | [] => List.Forall_nil P
            | x :: r => List.Forall_cons P x r (MenuItem_nested_ind x) (all r)
            end) cs)
  end.
End MenuItem_induction.

(** Pre-order list of the identifiers of a node and of a forest. *)
Fixpoint node_ids (n : MenuItem) : list string :=
  match n with
  | mkItem i _ c =>
      i :: match c with
           | Some cs => flat_map node_ids cs
           | None => []
           end
  end.

Definition ids (t : list MenuItem) : list string := flat_map node_ids t.

(** [InTree n t]: the node [n] occurs, with its whole subtree, somewhere in
    the forest [t]. *)
Inductive InTree (n : MenuItem) : list MenuItem → Prop :=
  | InTree_here t : n ∈ t → InTree n t
  | InTree_below i l cs t :
      mkItem i l (Some cs) ∈ t → InTree n cs → InTree n t.

(** Number of places of a forest that hold a node structurally equal to
    [n]. *)
Global Instance MenuItem_eq_dec : EqDecision MenuItem.
Proof.
  refine (fix go (x y : MenuItem) {struct x} : Decision (x = y) :=
    match x, y with
    | mkItem i l c, mkItem i' l' c' =>
        cast_if_and3 (decide (i = i')) (decide (l = l'))
          (match c, c' return Decision (c = c') with
           | None, None => left eq_refl
           | Some cs, Some cs' =>
               cast_if ((fix gol (a b : list MenuItem) {struct a}
                          : Decision (a = b) :=
                          match a, b with
                          | [], [] => left eq_refl
                          | u :: a', v :: b' =>
                              cast_if_and (go u v) (gol a' b')
                          | _, _ => right _
                          end) cs cs')
           | _, _ => right _
           end)
    end); clear go; try clear gol; congruence.
Defined.

Fixpoint node_copies (n : MenuItem) (x : MenuItem) : nat :=
  (if decide (x = n) then 1 else 0) +
  match x with
  | mkItem _ _ (Some cs) => list_sum (map (node_copies n) cs)
  | _ => 0
  end.

Definition copies (n : MenuItem) (t : list MenuItem) : nat :=
  list_sum (map (node_copies n) t).

(** ** Direct tree surgery *)

Module Surgery.

(** [newChildren.length > 0 ? newChildren : undefined] *)
Definition nonempty_or_absent (t : list MenuItem) : option (list MenuItem) :=
  match t with [] => None | _ :: _ => Some t end.

(** The callback of [tree.reduce] in [removeItemFromTree], threading the
    closure variable [removed] and the accumulator [acc]. *)
Fixpoint removeStep (id : string) (item : MenuItem)
    (st : option MenuItem * list MenuItem) : option MenuItem * list MenuItem :=
  match item with
  | mkItem i l c =>
      if decide (i = id) then (Some (mkItem i l c), st.2)
      else
        match c with
        | Some ((_ :: _) as cs) =>
            let r :=
              (fix reduce (t : list MenuItem)
                   (s : option MenuItem * list MenuItem) :=
                 match t with
                 | [] => s
                 | y :: t' => reduce t' (removeStep id y s)
                 end) cs (None, []) in
            (match r.1 with Some x => Some x | None => st.1 end,
             st.2 ++ [mkItem i l (nonempty_or_absent r.2)])
        | _ => (st.1, st.2 ++ [mkItem i l c])
        end
  end.

Definition removeItemFromTree (tree : list MenuItem) (id : string)
    : option MenuItem * list MenuItem :=
  foldl (λ st item, removeStep id item st) (None, []) tree.

(** [position === "inside"]: the function mapped over the tree. *)
Fixpoint insertInside (item : MenuItem) (targetId : string)
    (node : MenuItem) : MenuItem :=
  match node with
  | mkItem i l c =>
      if decide (i = targetId) then mkItem i l (Some (default [] c ++ [item]))
      else
        match c with
        | Some cs => mkItem i l (Some (map (insertInside item targetId) cs))
        | None => mkItem i l c
        end
  end.

(** [before] and [after]: what one iteration of the loop pushes onto
    [result].  The flag [inserted] of the source is written but never read,
    so it does not appear. *)
Fixpoint insertBeside (item : MenuItem) (targetId : string) (pos : Position)
    (node : MenuItem) : list MenuItem :=
  match node with
  | mkItem i l c =>
      if decide (i = targetId) then
        match pos with
        | before => [item; mkItem i l c]
        | _ => [mkItem i l c; item]
        end
      else
        match c with
        | Some ((_ :: _) as cs) =>
            [mkItem i l (Some (flat_map (insertBeside item targetId pos) cs))]
        | _ => [mkItem i l c]
        end
  end.

Definition insertItemInTree (tree : list MenuItem) (item : MenuItem)
    (targetId : string) (position : Position) : list MenuItem :=
  match position with
  | inside => map (insertInside item targetId) tree
  | _ => flat_map (insertBeside item targetId position) tree
  end.

(** [checkSubtree]: a loop with an early [return true]. *)
Fixpoint checkNode (targetId : string) (node : MenuItem) : bool :=
  match node with
  | mkItem i _ c =>
      bool_decide (i = targetId) ||
      match c with
      | Some cs => existsb (checkNode targetId) cs
      | None => false
      end
  end.

Definition checkSubtree (targetId : string) (nodes : list MenuItem) : bool :=
  existsb (checkNode targetId) nodes.

(** One iteration of the loop of [findInChildren]: [Some b] when the
    iteration returns [b], [None] when the loop goes on. *)
Fixpoint findStep (parentId targetId : string) (item : MenuItem)
    : option bool :=
  match item with
  | mkItem i _ c =>
      if decide (i = parentId) then
        Some (match c with
              | Some cs => checkSubtree targetId cs
              | None => false
              end)
      else
        match c with
        | Some cs =>
            if (fix loop (t : list MenuItem) : bool :=
                  match t with
                  | [] => false
                  | x :: r =>
                      match findStep parentId targetId x with
                      | Some b => b
                      | None => loop r
                      end
                  end) cs
            then Some true else None
        | None => None
        end
  end.

Fixpoint findInChildren (parentId targetId : string) (items : list MenuItem)
    : bool :=
  match items with
  | [] => false
  | x :: r =>
      match findStep parentId targetId x with
      | Some b => b
      | None => findInChildren parentId targetId r
      end
  end.

Definition isDescendant (tree : list MenuItem) (parentId targetId : string)
    : bool :=
  findInChildren parentId targetId tree.

(** [type DropZone = { id; position; level }]. *)
Record DropZone : Type := mkDropZone {
  dz_id : string;
  dz_position : Position;
  dz_level : nat;
}.

(** [handleDrop] of the drag-and-drop variant, on the state [draggedId] and
    [dropZone]: the tree handed to [onItemsChange], [None] when the handler
    returns without reporting.  An empty string is falsy in
    [!draggedId]. *)
Definition handleDrop (items : list MenuItem) (draggedId : option string)
    (dropZone : option DropZone) : option (list MenuItem) :=
  match draggedId, dropZone with
  | Some dragged, Some zone =>
      if bool_decide (dragged = "") || bool_decide (dragged = dz_id zone)
      then None
      else if isDescendant items dragged (dz_id zone) then None
      else
        match removeItemFromTree items dragged with
        | (Some removedItem, treeWithoutDragged) =>
            Some (insertItemInTree treeWithoutDragged removedItem
                    (dz_id zone) (dz_position zone))
        | (None, _) => None
        end
  | _, _ => None
  end.

End Surgery.

(** ** Flatten and rebuild *)

Module Flat.

(** [interface FlatItem extends MenuItem { parentId: string | null }].  The
    spread [{ ...item, parentId }] keeps the [children] field of the node the
    entry was made from. *)
Record FlatItem : Type := mkFlat {
  fid : string;
  flabel : string;
  fchildren : option (list MenuItem);
  parentId : option string;
}.

(** JavaScript truthiness of a [string | null]: [null] and the empty string
    are falsy. *)
Definition truthy (s : option string) : bool :=
  match s with
  | Some x => negb (bool_decide (x = ""))
  | None => false
  end.

(** [v || null] on a [string | null | undefined]. *)
Definition or_null (s : option string) : option string :=
  if truthy s then s else None.

Fixpoint flattenItem (parent : option string) (item : MenuItem)
    : list FlatItem :=
  match item with
  | mkItem i l c =>
      mkFlat i l c parent ::
      match c with
      | Some cs => flat_map (flattenItem (Some i)) cs
      | None => []
      end
  end.

Definition flattenWithParent (items : list MenuItem)
    (parent : option string) : list FlatItem :=
  flat_map (flattenItem parent) items.

(** The shells held by [itemMap].  A shell is a mutable object shared by
    reference between the map and the [children] arrays it is pushed to, so
    [children] holds references: the keys under which the shells sit in the
    map. *)
Record Shell : Type := mkShell {
  s_id : string;
  s_label : string;
  s_children : list string;
}.

(** What [rebuildTreeFromFlat] returns: an array of references into the
    shells. *)
Record ObjGraph : Type := mkGraph {
  og_heap : gmap string Shell;
  og_roots : list string;
}.

(** First loop: [itemMap.set(item.id, { id, label, children: [] })]. *)
Definition createShells (flatList : list FlatItem) : gmap string Shell :=
  foldl (λ m item, <[fid item := mkShell (fid item) (flabel item) []]> m)
        ∅ flatList.

(** Body of the second loop. *)
Definition linkStep (m : gmap string Shell) (item : FlatItem)
    : gmap string Shell :=
  if truthy (parentId item) then
    match parentId item with
    | Some p =>
        match m !! p, m !! fid item with
        | Some parent, Some _ =>
            <[p := mkShell (s_id parent) (s_label parent)
                     (s_children parent ++ [fid item])]> m
        | _, _ => m
        end
    | None => m
    end
  else m.

Definition is_root (item : FlatItem) : bool :=
  match parentId item with None => true | Some _ => false end.

Definition rebuildTreeFromFlat (flatList : list FlatItem) : ObjGraph :=
  let itemMap := foldl linkStep (createShells flatList) flatList in
  mkGraph itemMap (map fid (filter (λ item, is_root item = true) flatList)).

(** How a call completes. *)
Inductive Completion (A : Type) : Type :=
  | Returns (v : A)
  | Throws (reason : string).
Arguments Returns {A} v.
Arguments Throws {A} reason.

(** The body of [rebuildTreeFromFlat] has no [throw], and none of its
    operations can fail: the [get] of the last line only asks for keys the
    first loop has set. *)
Definition call_rebuildTreeFromFlat (flatList : list FlatItem)
    : Completion ObjGraph :=
  Returns (rebuildTreeFromFlat flatList).

(** Reading the object behind a reference as a tree value.  The graph of
    shells is finite but may be cyclic; [None] means the fuel ran out. *)
Fixpoint readNode (fuel : nat) (m : gmap string Shell) (k : string)
    : option MenuItem :=
  match fuel with
  | O => None
  | S f =>
      sh ← m !! k;
      cs ← mapM (readNode f m) (s_children sh);
      Some (mkItem (s_id sh) (s_label sh) (Some cs))
  end.

Definition readTree (fuel : nat) (g : ObjGraph) : option (list MenuItem) :=
  mapM (readNode fuel (og_heap g)) (og_roots g).

(** The tree value of the rebuilt structure; a path without repetition
    visits each shell at most once. *)
Definition rebuilt (flatList : list FlatItem) : option (list MenuItem) :=
  readTree (S (length flatList)) (rebuildTreeFromFlat flatList).

(** [flatList.findIndex((x) => x.id === id)], [None] for [-1]. *)
Definition findIndex (id : string) (flatList : list FlatItem) : option nat :=
  fst <$> list_find (λ x, fid x = id) flatList.

(** [flatList.find((x) => x.id === id)]. *)
Definition find (id : string) (flatList : list FlatItem) : option FlatItem :=
  snd <$> list_find (λ x, fid x = id) flatList.

Inductive DragPosition : Type := above | below.

(** [list.splice(i, 1)] and [list.splice(i, 0, x)]. *)
Definition spliceOut {A} (i : nat) (l : list A) : list A :=
  take i l ++ drop (S i) l.

Definition spliceIn {A} (i : nat) (x : A) (l : list A) : list A :=
  take i l ++ x :: drop i l.

(** The flat-list part of [handleDrop]: [None] when one of the guards
    fails and nothing is reported. *)
Definition reorder (flatList : list FlatItem) (draggedItem : option string)
    (targetId : string) (dragPosition : option DragPosition)
    : option (list FlatItem) :=
  match draggedItem with
  | Some dragged =>
      if truthy draggedItem && negb (bool_decide (dragged = targetId)) then
        match findIndex dragged flatList, findIndex targetId flatList with
        | Some draggedIdx, Some targetIdx =>
            draggedEntry ← flatList !! draggedIdx;
            let newFlatList := spliceOut draggedIdx flatList in
            let insertIdx :=
              match dragPosition with
              | Some above => targetIdx
              | _ => targetIdx + (if Nat.ltb draggedIdx targetIdx
                                  then 0 else 1)
              end in
            Some (spliceIn (if Nat.ltb draggedIdx insertIdx
                            then insertIdx - 1 else insertIdx)
                           draggedEntry newFlatList)
        | _, _ => None
        end
      else None
  | None => None
  end.

Definition handleDrop (items : list MenuItem) (draggedItem : option string)
    (dragPosition : option DragPosition) (targetId : string)
    : option ObjGraph :=
  rebuildTreeFromFlat <$>
    reorder (flattenWithParent items None) draggedItem targetId dragPosition.

Definition set_parentId (p : option string) (e : FlatItem) : FlatItem :=
  mkFlat (fid e) (flabel e) (fchildren e) p.

Definition set_children (c : option (list MenuItem)) (e : FlatItem)
    : FlatItem :=
  mkFlat (fid e) (flabel e) c (parentId e).

(** The flat-list part of [handlePromote]; the entry found is updated in
    place. *)
Definition promote (flatList : list FlatItem) (id : string)
    : option (list FlatItem) :=
  match list_find (λ x, fid x = id) flatList with
  | Some (k, item) =>
      if truthy (parentId item) then
        let grand :=
          match parentId item with
          | Some p => or_null (find p flatList ≫= parentId)
          | None => None
          end in
        Some (<[k := set_parentId grand item]> flatList)
      else None
  | None => None
  end.

Definition handlePromote (items : list MenuItem) (id : string)
    : option ObjGraph :=
  rebuildTreeFromFlat <$> promote (flattenWithParent items None) id.

(** The flat-list part of [handleDemote]. *)
Definition demote (flatList : list FlatItem) (id : string)
    : option (list FlatItem) :=
  match findIndex id flatList with
  | Some (S prevIdx) =>
      prevItem ← flatList !! prevIdx;
      item ← flatList !! S prevIdx;
      let l1 := <[S prevIdx := set_parentId (Some (fid prevItem)) item]>
                  flatList in
      Some (match fchildren prevItem with
            | None => alter (set_children (Some [])) prevIdx l1
            | Some _ => l1
            end)
  | _ => None
  end.

Definition handleDemote (items : list MenuItem) (id : string)
    : option ObjGraph :=
  rebuildTreeFromFlat <$> demote (flattenWithParent items None) id.

End Flat.

(** ** The page's helper *)

Module Page.

(** What the [map] callback makes of one item that passed the [filter]; the
    inner loop is the recursive call [removeItemById(item.children, id)],
    filter and map in one pass. *)
Fixpoint pruneNode (id : string) (item : MenuItem) : MenuItem :=
  match item with
  | mkItem i l c =>
      mkItem i l
        (match c with
         | Some cs =>
             Some ((fix prune (t : list MenuItem) : list MenuItem :=
                      match t with
                      | [] => []
                      | x :: r =>
                          if decide (item_id x ≠ id)
                          then pruneNode id x :: prune r
                          else prune r
                      end) cs)
         | None => None
         end)
  end.

Definition removeItemById (items : list MenuItem) (id : string)
    : list MenuItem :=
  map (pruneNode id) (filter (λ x, item_id x ≠ id) items).

(** The updater of [handleToggleExpand]: a copy of the set with [id]
    deleted when it was there and added when it was not. *)
Definition handleToggleExpand (prev : gset string) (id : string)
    : gset string :=
  if bool_decide (id ∈ prev) then prev ∖ {[id]} else prev ∪ {[id]}.

(** The updater of [handleRemoveItem]. *)
Definition handleRemoveItem (prevItems : list MenuItem) (id : string)
    : list MenuItem :=
  removeItemById prevItems id.

End Page.

(** ** Vocabulary of the properties *)

Import Surgery Flat Page.

Definition leaf (i l : string) : MenuItem := mkItem i l None.

(** The scenario tree: roots [about] and [collections], the latter with
    children [spring] and [summer]; the labels are left open. *)
Definition scenario (la lc lsp lsu : string) : list MenuItem :=
  [leaf "about" la;
   mkItem "collections" lc (Some [leaf "spring" lsp; leaf "summer" lsu])].

(** The same tree after [spring] went to the end of [collections]. *)
Definition scenario_moved (la lc lsp lsu : string) : list MenuItem :=
  [leaf "about" la;
   mkItem "collections" lc (Some [leaf "summer" lsu; leaf "spring" lsp])].

(** Removing [id] and putting the removed node back at [targetId]. *)
Definition remove_then_insert (tree : list MenuItem) (id targetId : string)
    (position : Position) : option (list MenuItem) :=
  let r := removeItemFromTree tree id in
  (λ removedNode, insertItemInTree r.2 removedNode targetId position) <$> r.1.

(** [x] sits immediately before [y] in [l]. *)
Definition immediately_before {A} (x y : A) (l : list A) : Prop :=
  ∃ l1 l2, l = l1 ++ x :: y :: l2.

(** Three roots, flattened. *)
Definition three_roots : list FlatItem :=
  flattenWithParent [leaf "a" "A"; leaf "b" "B"; leaf "c" "C"] None.

(** What the reorder is expected to do: the dragged entry ends up right
    before the target for [above] and right after it for [below]. *)
Definition reorder_places (flatList : list FlatItem) (dragged targetId : string)
    (pos : DragPosition) : Prop :=
  ∃ l', reorder flatList (Some dragged) targetId (Some pos) = Some l' ∧
        match pos with
        | above => immediately_before dragged targetId (map fid l')
        | below => immediately_before targetId dragged (map fid l')
        end.

(** The last entry before position [idx] that has the same parent as the
    entry at [idx]: its preceding sibling at the same level. *)
Definition precedingSibling (flatList : list FlatItem) (idx : nat)
    : option FlatItem :=
  item ← flatList !! idx;
  last (filter (λ e, parentId e = parentId item) (take idx flatList)).

(** Demote understood as adoption by the preceding sibling. *)
Definition demote_to_sibling (flatList : list FlatItem) (id : string) : Prop :=
  ∀ idx, findIndex id flatList = Some idx → idx ≠ 0 →
    ∃ l' e sib, demote flatList id = Some l' ∧ l' !! idx = Some e ∧
                precedingSibling flatList idx = Some sib ∧
                parentId e = Some (fid sib).

(** A root with one child, followed by a second root. *)
Definition nested_then_root : list MenuItem :=
  [mkItem "A" "A" (Some [leaf "a1" "A1"]); leaf "B" "B"].

(** Some node of the forest has an explicit empty children list. *)
Definition has_empty_children (t : list MenuItem) : Prop :=
  ∃ i l, InTree (mkItem i l (Some [])) t.

(** Removal understood as leaving no explicit empty children list at all. *)
Definition remove_leaves_no_empty_list (tree : list MenuItem) (id : string)
    : Prop :=
  id ∈ ids tree → ¬ has_empty_children (removeItemFromTree tree id).2.

(** A root with an explicit empty children list, followed by a leaf. *)
Definition empty_list_then_root : list MenuItem :=
  [mkItem "a" "A" (Some []); leaf "b" "B"].

(** [candidateId] names a node lying strictly inside the subtree of the node
    named [ancestorId]. *)
Definition strictly_inside (tree : list MenuItem)
    (ancestorId candidateId : string) : Prop :=
  ∃ n, InTree n tree ∧ item_id n = ancestorId
       ∧ candidateId ∈ ids (children_or_nil n).

(** A chain: root [A] with child [B] with child [C]. *)
Definition chain : list MenuItem :=
  [mkItem "A" "A" (Some [mkItem "B" "B" (Some [leaf "C" "C"])])].

(** Number of nodes of a node and of a forest. *)
Fixpoint node_size (n : MenuItem) : nat :=
  match n with
  | mkItem _ _ c =>
      S (match c with
         | Some cs => list_sum (map node_size cs)
         | None => 0
         end)
  end.

Definition forest_size (t : list MenuItem) : nat :=
  list_sum (map node_size t).

(** Insertion understood without a condition on the inserted node: one
    copy of it in the result when the target is in the tree, none and an
    unchanged tree when it is not. *)
Definition insert_one_copy (tree : list MenuItem) (item : MenuItem)
    (targetId : string) (position : Position) : Prop :=
  NoDup (ids tree) →
  (targetId ∈ ids tree →
     copies item (insertItemInTree tree item targetId position) = 1)
  ∧ (targetId ∉ ids tree →
     insertItemInTree tree item targetId position = tree
     ∧ copies item (insertItemInTree tree item targetId position) = 0).

(** The sequence of siblings under the parent reference [p] in a rebuilt
    structure: the root array for [null], the [children] array of the shell
    otherwise. *)
Definition siblings_in (g : ObjGraph) (p : option string)
    : option (list string) :=
  match p with
  | None => Some (og_roots g)
  | Some k => s_children <$> og_heap g !! k
  end.

(** The entries of a flat list whose parent reference is [p]. *)
Definition entries_under (p : option string) (flatList : list FlatItem)
    : list FlatItem :=
  filter (λ e, parentId e = p) flatList.

(** An entry of the list whose parent reference names no entry of the
    list. *)
Definition dangling (flatList : list FlatItem) (e : FlatItem) : Prop :=
  e ∈ flatList ∧ ∃ p, parentId e = Some p ∧ p ∉ fid <$> flatList.

(** Rebuild understood as rejecting a list with a dangling reference. *)
Definition rebuild_rejects_dangling (flatList : list FlatItem) : Prop :=
  (∃ e, dangling flatList e) →
  ∃ reason, call_rebuildTreeFromFlat flatList = Throws reason.

(** A root followed by an entry whose parent is not in the list. *)
Definition orphan_list : list FlatItem :=
  [mkFlat "a" "A" None None; mkFlat "x" "X" None (Some "ghost")].

(** Promote understood as appending the node after the entries that
    already had its new parent. *)
Definition promote_appends_last (flatList : list FlatItem) (id : string)
    : Prop :=
  ∀ l' item, promote flatList id = Some l' → find id l' = Some item →
    siblings_in (rebuildTreeFromFlat l') (parentId item)
    = Some ((fid <$> entries_under (parentId item) flatList) ++ [id]).

(** The entries that the second loop links under the key [k], starting from
    the map [m0]. *)
Definition linked_under (m0 : gmap string Shell) (k : string)
    (flatList : list FlatItem) : list FlatItem :=
  filter (λ e, truthy (parentId e) = true ∧ parentId e = Some k
               ∧ is_Some (m0 !! fid e)) flatList.

(** Refuting an adjacency in an explicit list. *)
Ltac no_adjacency H :=
  let l1 := fresh "l1" in
  let l2 := fresh "l2" in
  destruct H as (l1 & l2 & H);
  repeat (destruct l1 as [|? l1]; simplify_eq/=).

(** The form in which the rebuild returns a node: every [children] field is
    an explicit array.  Two trees with the same form have the same ids, the
    same labels, the same shape and the same sibling order. *)
Fixpoint shell_form (n : MenuItem) : MenuItem :=
  match n with
  | mkItem i l c =>
      mkItem i l (Some (match c with
                        | Some cs => map shell_form cs
                        | None => []
                        end))
  end.

Definition same_structure (t1 t2 : list MenuItem) : Prop :=
  map shell_form t1 = map shell_form t2.

(** Flattening and rebuilding gives back a tree of the same structure. *)
Definition round_trip (tree : list MenuItem) : Prop :=
  ∃ tree', rebuilt (flattenWithParent tree None) = Some tree'
           ∧ same_structure tree' tree.

(** A root whose id is the empty string, with one child. *)
Definition empty_id_parent : list MenuItem :=
  [mkItem "" "Root" (Some [leaf "a" "A"])].

(** The entries that flattening makes of the nodes of [t] themselves, under
    the parent reference [p]. *)
Definition top_entries (p : option string) (t : list MenuItem)
    : list FlatItem :=
  (λ n, mkFlat (item_id n) (item_label n) (item_children n) p) <$> t.

(** A path of parent references in a flat list, deepest entry first, ending
    in an entry without parent. *)
Inductive parent_path (flatList : list FlatItem) : list string → Prop :=
  | parent_path_root e :
      e ∈ flatList → parentId e = None → parent_path flatList [fid e]
  | parent_path_step e k path :
      parent_path flatList (k :: path) → e ∈ flatList → parentId e = Some k →
      parent_path flatList (fid e :: k :: path).

(** [Kept id n t]: the node [n] occurs in the forest [t] at a place where
    neither the node nor any of its ancestors has the identifier [id]. *)
Inductive Kept (id : string) (n : MenuItem) : list MenuItem → Prop :=
  | Kept_here t : n ∈ t → item_id n ≠ id → Kept id n t
  | Kept_below i l cs t :
      mkItem i l (Some cs) ∈ t → i ≠ id → Kept id n cs → Kept id n t.

(** A node with every empty children list, explicit or not, made absent:
    the form in which the two representations of "no children" coincide. *)
Fixpoint drop_empty (n : MenuItem) : MenuItem :=
  match n with
  | mkItem i l c =>
      mkItem i l (match c with
                  | Some ((_ :: _) as cs) => Some (map drop_empty cs)
                  | _ => None
                  end)
  end.

(** [SiblingList l t]: [l] is one of the sibling lists of the forest [t],
    the list of roots or the children list of one of its nodes. *)
Inductive SiblingList (l : list MenuItem) : list MenuItem → Prop :=
  | SiblingList_top : SiblingList l l
  | SiblingList_below i lb cs t :
      mkItem i lb (Some cs) ∈ t → SiblingList l cs → SiblingList l t.

(** Every parent reference of the list names an entry that comes earlier in
    the list. *)
Definition parents_first (l : list FlatItem) : Prop :=
  ∀ j e p, l !! j = Some e → parentId e = Some p →
    ∃ i pe, i < j ∧ l !! i = Some pe ∧ fid pe = p.

(** The node that the rebuild makes of an entry before any child is linked
    to it. *)
Definition shell_node (e : FlatItem) : MenuItem :=
  mkItem (fid e) (flabel e) (Some []).

(** Attaching one entry to a tree with the insertion of the tree surgery:
    as the last root when it has no parent, as the last child of its parent
    otherwise. *)
Definition attach (t : list MenuItem) (e : FlatItem) : list MenuItem :=
  match parentId e with
  | None => t ++ [shell_node e]
  | Some p => insertItemInTree t (shell_node e) p inside
  end.

(** What attaching the entry [e] makes of a node of the tree built so
    far. *)
Definition attach_under (e : FlatItem) (n : MenuItem) : MenuItem :=
  match parentId e with
  | Some p => insertInside (shell_node e) p n
  | None => n
  end.

(** [reparented l l']: the list [l'] has, place by place, the entries of
    [l] with the same ids; a parent reference is the one of [l], or null, or
    the id of an entry that comes earlier in [l]. *)
Definition reparented (l l' : list FlatItem) : Prop :=
  length l' = length l
  ∧ ∀ i e, l !! i = Some e →
      ∃ e', l' !! i = Some e' ∧ fid e' = fid e
            ∧ (parentId e' = parentId e ∨ parentId e' = None
               ∨ ∃ i0 pe, i0 < i ∧ l !! i0 = Some pe
                          ∧ parentId e' = Some (fid pe)).

(** ** Properties of the tree surgery *)

(** C4, as amended: on the scenario tree, removing [spring] and inserting
    the removed node inside [collections] gives the tree whose [collections]
    has the children [summer; spring]: the node comes back as the last
    child, after [summer]. *)
Theorem remove_insert_inside_appends_last (la lc lsp lsu : string) :
  removeItemFromTree (scenario la lc lsp lsu) "spring"
    = (Some (leaf "spring" lsp),
       [leaf "about" la; mkItem "collections" lc (Some [leaf "summer" lsu])])
  ∧ remove_then_insert (scenario la lc lsp lsu) "spring" "collections" inside
    = Some (scenario_moved la lc lsp lsu).
Proof. split; reflexivity. Qed.

(** C4, the statement as written fails: the result of the reinsertion is
    not the original tree. *)
Lemma remove_insert_inside_not_original :
  remove_then_insert (scenario "About Us" "Collections" "Spring" "Summer")
                     "spring" "collections" inside
  ≠ Some (scenario "About Us" "Collections" "Spring" "Summer").
Proof. vm_compute. discriminate. Qed.

(** ** Properties of the flat-list operations *)

Lemma findIndex_Some id flatList k :
  findIndex id flatList = Some k →
  ∃ e, flatList !! k = Some e ∧ fid e = id ∧
       ∀ j y, flatList !! j = Some y → j < k → fid y ≠ id.
Proof.
  unfold findIndex. intros H.
  destruct (list_find _ flatList) as [[k' e]|] eqn:E; simplify_eq/=.
  apply list_find_Some in E as (? & ? & ?). eauto.
Qed.

(** C2, the defect: dragging [a] to the lower half of [b] in the list
    [a; b; c] leaves the list as it was, with [a] still right before [b],
    where the entry should have landed right after [b]. *)
Theorem reorder_below_forward_misplaces :
  reorder three_roots (Some "a") "b" (Some below) = Some three_roots
  ∧ map fid three_roots = ["a"; "b"; "c"]
  ∧ immediately_before "a" "b" (map fid three_roots)
  ∧ ¬ reorder_places three_roots "a" "b" below.
Proof.
  split; [reflexivity|]. split; [reflexivity|]. split.
  - by exists [], ["c"].
  - intros (l' & Hr & Hadj). vm_compute in Hr. simplify_eq.
    vm_compute in Hadj. no_adjacency Hadj.
Qed.

(** C7, as amended: demoting an entry that is not the first of the flat
    list sets its parent reference to the id of the entry right before it
    in the flat list, and changes no other id, label or parent
    reference. *)
Theorem demote_adopts_previous_entry
    (flatList : list FlatItem) (id : string) (prevIdx : nat) :
  findIndex id flatList = Some (S prevIdx) →
  ∃ prev l', flatList !! prevIdx = Some prev
        ∧ demote flatList id = Some l'
        ∧ parentId <$> l' !! S prevIdx = Some (Some (fid prev))
        ∧ fid <$> l' = fid <$> flatList
        ∧ flabel <$> l' = flabel <$> flatList
        ∧ ∀ j, j ≠ S prevIdx → parentId <$> l' !! j = parentId <$> flatList !! j.
Proof.
  intros Hidx. unfold demote. rewrite Hidx.
  apply findIndex_Some in Hidx as (item & Hitem & _ & _).
  assert (Hlen : S prevIdx < length flatList) by eauto using lookup_lt_Some.
  destruct (lookup_lt_is_Some_2 flatList prevIdx) as [prev Hprev]; [lia|].
  exists prev. rewrite Hprev, Hitem. simpl. eexists.
  split; [done|]. split; [reflexivity|].
  set (l1 := <[S prevIdx:=set_parentId (Some (fid prev)) item]> flatList).
  assert (H1 : parentId <$> l1 !! S prevIdx = Some (Some (fid prev))).
  { unfold l1. by rewrite list_lookup_insert_eq. }
  assert (H2 : fid <$> l1 = fid <$> flatList).
  { unfold l1. rewrite list_fmap_insert. simpl.
    apply list_insert_id. by rewrite list_lookup_fmap, Hitem. }
  assert (H3 : flabel <$> l1 = flabel <$> flatList).
  { unfold l1. rewrite list_fmap_insert. simpl.
    apply list_insert_id. by rewrite list_lookup_fmap, Hitem. }
  assert (H4 : ∀ j, j ≠ S prevIdx →
                    parentId <$> l1 !! j = parentId <$> flatList !! j).
  { intros j Hj. unfold l1. by rewrite list_lookup_insert_ne. }
  destruct (fchildren prev); [done|].
  repeat split.
  - rewrite list_lookup_alter_ne by lia. done.
  - rewrite <- H2. apply list_eq. intros j.
    rewrite !list_lookup_fmap. destruct (decide (j = prevIdx)) as [->|].
    + rewrite list_lookup_alter_eq. by destruct (l1 !! prevIdx).
    + by rewrite list_lookup_alter_ne.
  - rewrite <- H3. apply list_eq. intros j.
    rewrite !list_lookup_fmap. destruct (decide (j = prevIdx)) as [->|].
    + rewrite list_lookup_alter_eq. by destruct (l1 !! prevIdx).
    + by rewrite list_lookup_alter_ne.
  - intros j Hj. rewrite <- H4 by done.
    destruct (decide (j = prevIdx)) as [->|].
    + rewrite list_lookup_alter_eq. by destruct (l1 !! prevIdx).
    + by rewrite list_lookup_alter_ne.
Qed.

Lemma demote_adopts_previous_entry_witness :
  ∃ prev l',
    flattenWithParent nested_then_root None !! 1 = Some prev
    ∧ demote (flattenWithParent nested_then_root None) "B" = Some l'
    ∧ parentId <$> l' !! 2 = Some (Some (fid prev))
    ∧ fid <$> l' = fid <$> flattenWithParent nested_then_root None
    ∧ flabel <$> l' = flabel <$> flattenWithParent nested_then_root None
    ∧ ∀ j, j ≠ 2 →
        parentId <$> l' !! j
        = parentId <$> flattenWithParent nested_then_root None !! j.
Proof.
  apply (demote_adopts_previous_entry
           (flattenWithParent nested_then_root None) "B" 1); reflexivity.
Defined.

(** C7, the statement as written fails: in the flattening of [A] (with
    child [a1]) followed by the root [B], demoting [B] makes it a child of
    [a1], the entry before it, while its preceding sibling is [A]. *)
Lemma demote_not_to_preceding_sibling :
  ¬ demote_to_sibling (flattenWithParent nested_then_root None) "B".
Proof.
  intros H. destruct (H 2) as (l' & e & sib & Hd & He & Hs & Hp);
    [reflexivity|lia|].
  vm_compute in Hd. simplify_eq. vm_compute in He, Hs. simplify_eq.
Qed.

(** ** Forests: membership, identifiers *)

Lemma forest_ind (P : MenuItem → Prop) (Q : list MenuItem → Prop) :
  (∀ i l, P (mkItem i l None)) →
  (∀ i l cs, Q cs → P (mkItem i l (Some cs))) →
  Q [] →
  (∀ x r, P x → Q r → Q (x :: r)) →
  (∀ n, P n) ∧ (∀ t, Q t).
Proof.
  intros Hleaf Hnode Hnil Hcons.
  assert (HP : ∀ n, P n).
  { apply MenuItem_nested_ind; [done|].
    intros i l cs HF. apply Hnode. induction HF; eauto. }
  split; [done|]. intros t. induction t; eauto.
Qed.

Lemma forest_ind_list (Q : list MenuItem → Prop) :
  Q [] →
  (∀ i l r, Q r → Q (mkItem i l None :: r)) →
  (∀ i l cs r, Q cs → Q r → Q (mkItem i l (Some cs) :: r)) →
  ∀ t, Q t.
Proof.
  intros Hnil Hleaf Hnode.
  apply (forest_ind (λ n, ∀ r, Q r → Q (n :: r)) Q); eauto.
Qed.

Lemma elem_of_flat_map {A B} (f : A → list B) (l : list A) (y : B) :
  y ∈ flat_map f l ↔ ∃ x, x ∈ l ∧ y ∈ f x.
Proof.
  rewrite list_elem_of_In, in_flat_map.
  split; intros (x & ? & ?); exists x; by rewrite ?list_elem_of_In in *.
Qed.

Lemma ids_cons x r : ids (x :: r) = node_ids x ++ ids r.
Proof. reflexivity. Qed.

Lemma ids_app t1 t2 : ids (t1 ++ t2) = ids t1 ++ ids t2.
Proof. apply flat_map_app. Qed.

Lemma node_ids_eq n : node_ids n = item_id n :: ids (children_or_nil n).
Proof. by destruct n as [i l [cs|]]. Qed.

Lemma InTree_nil n : ¬ InTree n [].
Proof. inversion 1; subst; by eapply not_elem_of_nil. Qed.

Lemma InTree_cons n x r :
  InTree n (x :: r) ↔ n = x ∨ InTree n (children_or_nil x) ∨ InTree n r.
Proof.
  split.
  - inversion 1 as [t Hin|i l cs t Hin Hsub]; subst.
    + apply elem_of_cons in Hin as [->|Hin]; [by left|].
      right; right. by constructor.
    + apply elem_of_cons in Hin as [<-|Hin]; [by right; left|].
      right; right. by econstructor 2.
  - intros [->|[Hc|Hr]].
    + constructor. by left.
    + destruct x as [i l [cs|]]; simpl in Hc.
      * econstructor 2; [by left|done].
      * by apply InTree_nil in Hc.
    + inversion Hr; subst.
      * constructor. by right.
      * econstructor 2; [by right|done].
Qed.

Lemma InTree_ids n t : InTree n t → node_ids n ⊆ ids t.
Proof.
  induction 1 as [t Hin|i l cs t Hin Hsub IH]; intros x Hx.
  - apply elem_of_flat_map. eauto.
  - apply elem_of_flat_map. eexists; split; [done|].
    simpl. right. by apply IH.
Qed.

Lemma InTree_id n t : InTree n t → item_id n ∈ ids t.
Proof.
  intros H. apply (InTree_ids _ _ H). rewrite node_ids_eq. by left.
Qed.

Lemma ids_InTree t x : x ∈ ids t → ∃ n, InTree n t ∧ item_id n = x.
Proof.
  revert t. apply (forest_ind_list (λ t, x ∈ ids t → ∃ n, InTree n t ∧ item_id n = x)).
  - intros H. by apply not_elem_of_nil in H.
  - intros i l r IH. rewrite ids_cons. simpl.
    intros [->|H]%elem_of_cons.
    + eexists. split; [apply InTree_cons; by left|done].
    + destruct (IH H) as (n & ? & ?). exists n. split; [|done].
      apply InTree_cons. auto.
  - intros i l cs r IHc IHr. rewrite ids_cons. simpl.
    intros [->|[H|H]%elem_of_app]%elem_of_cons.
    + eexists. split; [apply InTree_cons; by left|done].
    + destruct (IHc H) as (n & ? & ?). exists n. split; [|done].
      apply InTree_cons. auto.
    + destruct (IHr H) as (n & ? & ?). exists n. split; [|done].
      apply InTree_cons. auto.
Qed.

Lemma InTree_trans n m t :
  InTree n (children_or_nil m) → InTree m t → InTree n t.
Proof.
  intros Hn. induction 1 as [t Hin|i l cs t Hin Hsub IH].
  - destruct m as [i l [cs|]]; simpl in Hn.
    + by econstructor 2.
    + by apply InTree_nil in Hn.
  - econstructor 2; eauto.
Qed.

(** With distinct identifiers a node is determined by its identifier. *)
Lemma InTree_unique t :
  NoDup (ids t) →
  ∀ n m, InTree n t → InTree m t → item_id n = item_id m → n = m.
Proof.
  revert t. apply (forest_ind_list (λ t, NoDup (ids t) →
    ∀ n m, InTree n t → InTree m t → item_id n = item_id m → n = m)).
  - intros _ n m H. by apply InTree_nil in H.
  - intros i l r IH. rewrite ids_cons. simpl.
    intros [Hi Hr]%NoDup_cons n m Hn Hm Heq.
    apply InTree_cons in Hn as [->|[Hn|Hn]];
      apply InTree_cons in Hm as [->|[Hm|Hm]];
      try (by apply InTree_nil in Hn); try (by apply InTree_nil in Hm);
      try done.
    + apply InTree_id in Hm. simpl in Heq. by rewrite <- Heq in Hm.
    + apply InTree_id in Hn. simpl in Heq. by rewrite Heq in Hn.
    + by apply IH.
  - intros i l cs r IHc IHr. rewrite ids_cons. simpl.
    intros [Hi [Hc [Hd Hr]]%NoDup_app]%NoDup_cons n m Hn Hm Heq.
    rewrite elem_of_app in Hi.
    apply InTree_cons in Hn as [->|[Hn|Hn]];
      apply InTree_cons in Hm as [->|[Hm|Hm]]; simpl in *; try done.
    + apply InTree_id in Hm. rewrite <- Heq in Hm. tauto.
    + apply InTree_id in Hm. rewrite <- Heq in Hm. tauto.
    + apply InTree_id in Hn. rewrite Heq in Hn. tauto.
    + by apply IHc.
    + apply InTree_id in Hn, Hm. rewrite Heq in Hn. by destruct (Hd _ Hn).
    + apply InTree_id in Hn. rewrite Heq in Hn. tauto.
    + apply InTree_id in Hn, Hm. rewrite Heq in Hn. by destruct (Hd _ Hm).
    + by apply IHr.
Qed.

(** ** Properties of the page's helper *)

Lemma ids_leaf_cons i l r : ids (mkItem i l None :: r) = i :: ids r.
Proof. reflexivity. Qed.

Lemma ids_node_cons i l cs r :
  ids (mkItem i l (Some cs) :: r) = i :: ids cs ++ ids r.
Proof. reflexivity. Qed.

Lemma removeItemById_cons x r id :
  removeItemById (x :: r) id
  = if decide (item_id x ≠ id) then pruneNode id x :: removeItemById r id
    else removeItemById r id.
Proof.
  unfold removeItemById. rewrite filter_cons. by case_decide.
Qed.

Lemma pruneNode_Some id i l cs :
  pruneNode id (mkItem i l (Some cs)) = mkItem i l (Some (removeItemById cs id)).
Proof.
  simpl. do 2 f_equal. induction cs as [|x r IH]; [done|].
  rewrite removeItemById_cons. case_decide; by rewrite IH.
Qed.

Lemma pruneNode_id id n : item_id (pruneNode id n) = item_id n.
Proof. by destruct n as [i l [cs|]]. Qed.

Lemma removeItemById_absent t id : id ∉ ids t → removeItemById t id = t.
Proof.
  revert t. apply (forest_ind_list (λ t, id ∉ ids t → removeItemById t id = t)).
  - done.
  - intros i l r IH. rewrite ids_leaf_cons. intros H.
    rewrite not_elem_of_cons in H. destruct H as [Hi Hr].
    rewrite removeItemById_cons; cbn [item_id]. rewrite decide_True by done.
    by rewrite IH.
  - intros i l cs r IHc IHr. rewrite ids_node_cons. intros H.
    rewrite not_elem_of_cons, not_elem_of_app in H. destruct H as [Hi [Hc Hr]].
    rewrite removeItemById_cons; cbn [item_id]. rewrite decide_True by done.
    rewrite pruneNode_Some. by rewrite IHc, IHr.
Qed.

Lemma filter_notin_all (l k : list string) :
  (∀ x, x ∈ l → x ∉ k) → filter (λ x, x ∉ k) l = l.
Proof.
  intros H. induction l as [|a l IH]; [done|].
  rewrite filter_cons, decide_True by (apply H; by left).
  rewrite IH; [done|]. intros x Hx. apply H. by right.
Qed.

Lemma filter_notin_none (l k : list string) :
  l ⊆ k → filter (λ x, x ∉ k) l = [].
Proof.
  intros H. induction l as [|a l IH]; [done|].
  rewrite filter_cons, decide_False.
  - apply IH. intros x Hx. apply H. by right.
  - intros Hn. apply Hn, H. by left.
Qed.

Lemma removeItemById_ids items id n :
  NoDup (ids items) → InTree n items → item_id n = id →
  ids (removeItemById items id) = filter (λ x, x ∉ node_ids n) (ids items).
Proof.
  revert items. apply (forest_ind_list (λ items, NoDup (ids items) → InTree n items → item_id n = id →
  ids (removeItemById items id) = filter (λ x, x ∉ node_ids n) (ids items))).
  - intros _ H. by apply InTree_nil in H.
  - intros i l r IH. rewrite ids_leaf_cons.
    intros [Hi Hr]%NoDup_cons Hn Hid.
    rewrite removeItemById_cons; cbn [item_id].
    apply InTree_cons in Hn as [->|[Hn|Hn]].
    + simpl in *. subst. rewrite decide_False by naive_solver.
      rewrite removeItemById_absent by done.
      rewrite filter_cons, decide_False by (intros H; apply H; by left).
      symmetry. apply filter_notin_all. intros x Hx [->|H]%elem_of_cons; [done|].
      by apply not_elem_of_nil in H.
    + by apply InTree_nil in Hn.
    + assert (i ≠ id). { intros ->. apply InTree_id in Hn. by rewrite Hid in Hn. }
      rewrite decide_True by done. cbn [pruneNode]. rewrite ids_leaf_cons.
      rewrite filter_cons, decide_True.
      * f_equal. by apply IH.
      * intros Hx. apply Hi. by apply (InTree_ids _ _ Hn).
  - intros i l cs r IHc IHr. rewrite ids_node_cons.
    intros [Hi [Hc [Hd Hr]]%NoDup_app]%NoDup_cons Hn Hid.
    rewrite elem_of_app in Hi.
    rewrite removeItemById_cons; cbn [item_id].
    apply InTree_cons in Hn as [->|[Hn|Hn]].
    + simpl in *. subst. rewrite decide_False by naive_solver.
      rewrite removeItemById_absent by tauto.
      rewrite filter_cons, decide_False by (intros H; apply H; by left).
      rewrite filter_app.
      rewrite filter_notin_none by (intros x Hx; by right).
      simpl. symmetry. apply filter_notin_all.
      intros x Hx [->|H]%elem_of_cons; [tauto|]. by destruct (Hd _ H).
    + simpl in Hn.
      assert (i ≠ id). { intros ->. apply InTree_id in Hn. rewrite Hid in Hn. tauto. }
      rewrite decide_True by done. rewrite pruneNode_Some, ids_node_cons.
      rewrite filter_cons, decide_True.
      * f_equal. rewrite filter_app. rewrite IHc by done.
        f_equal. rewrite removeItemById_absent.
        -- symmetry. apply filter_notin_all. intros x Hx Hx'.
           apply (InTree_ids _ _ Hn) in Hx'. by destruct (Hd _ Hx').
        -- intros Hx. apply InTree_id in Hn. rewrite Hid in Hn. by destruct (Hd _ Hn).
      * intros Hx. apply (InTree_ids _ _ Hn) in Hx. tauto.
    + assert (Hidr : id ∈ ids r). { apply InTree_id in Hn. by rewrite Hid in Hn. }
      assert (i ≠ id). { intros ->. tauto. }
      rewrite decide_True by done. rewrite pruneNode_Some, ids_node_cons.
      rewrite filter_cons, decide_True.
      * f_equal. rewrite filter_app. rewrite IHr by done.
        f_equal. rewrite removeItemById_absent.
        -- symmetry. apply filter_notin_all. intros x Hx Hx'.
           apply (InTree_ids _ _ Hn) in Hx'. by destruct (Hd _ Hx).
        -- intros Hx. by destruct (Hd _ Hx).
      * intros Hx. apply (InTree_ids _ _ Hn) in Hx. tauto.
Qed.

Lemma ids_children_sub m t :
  InTree m t → ids (children_or_nil m) ⊆ ids t.
Proof.
  intros H x Hx. apply (InTree_ids _ _ H). rewrite node_ids_eq. by right.
Qed.

Lemma Kept_nil id n : ¬ Kept id n [].
Proof. inversion 1; subst; by eapply not_elem_of_nil. Qed.

Lemma Kept_cons id n x r :
  Kept id n (x :: r)
  ↔ (n = x ∧ item_id x ≠ id)
    ∨ (item_id x ≠ id ∧ Kept id n (children_or_nil x))
    ∨ Kept id n r.
Proof.
  split.
  - inversion 1 as [t Hin Hne|i l cs t Hin Hne Hsub]; subst.
    + apply elem_of_cons in Hin as [->|Hin]; [by left|].
      right; right. by constructor.
    + apply elem_of_cons in Hin as [<-|Hin]; [by right; left|].
      right; right. by econstructor 2.
  - intros [[-> Hne]|[[Hne Hc]|Hr]].
    + constructor; [by left|done].
    + destruct x as [i l [cs|]]; cbn in Hc.
      * econstructor 2; [by left|done..].
      * by apply Kept_nil in Hc.
    + inversion Hr; subst.
      * constructor; [by right|done].
      * econstructor 2; [by right|done..].
Qed.

Lemma Kept_InTree id n t : Kept id n t → InTree n t.
Proof.
  induction 1; [by constructor|by econstructor 2].
Qed.

Lemma Kept_id id n t : Kept id n t → item_id n ≠ id.
Proof. by induction 1. Qed.

(** With distinct identifiers, the ancestors of the node named [id], its
    parent among them, are kept. *)
Lemma NoDup_Kept t id m :
  NoDup (ids t) → InTree m t → id ∈ ids (children_or_nil m) → Kept id m t.
Proof.
  intros Hnd Hm Hid. revert t Hnd Hm.
  apply (forest_ind_list (λ t, NoDup (ids t) → InTree m t → Kept id m t)).
  - intros _ Hx. by apply InTree_nil in Hx.
  - intros i l r IH. rewrite ids_leaf_cons.
    intros [Hi Hr]%NoDup_cons Hm. rewrite Kept_cons.
    apply InTree_cons in Hm as [->|[Hm|Hm]].
    + by apply not_elem_of_nil in Hid.
    + by apply InTree_nil in Hm.
    + right; right. by apply IH.
  - intros i l cs r IHc IHr. rewrite ids_node_cons.
    intros [Hi [Hc [Hd Hr]]%NoDup_app]%NoDup_cons Hm.
    rewrite elem_of_app in Hi. rewrite Kept_cons.
    apply InTree_cons in Hm as [->|[Hm|Hm]].
    + left. split; [done|]. cbn. intros ->. cbn in Hid. tauto.
    + right; left. cbn in Hm. cbn. split; [|by apply IHc].
      intros ->. apply (ids_children_sub _ _ Hm) in Hid. tauto.
    + right; right. by apply IHr.
Qed.

Lemma removeItemById_no_id items id : id ∉ ids (removeItemById items id).
Proof.
  revert items. apply (forest_ind_list (λ items,
    id ∉ ids (removeItemById items id))).
  - by intros ?%not_elem_of_nil.
  - intros i l r IH. rewrite removeItemById_cons. cbn [item_id].
    case_decide; [|done]. cbn [pruneNode]. rewrite ids_leaf_cons.
    by intros [->|?]%elem_of_cons.
  - intros i l cs r IHc IHr. rewrite removeItemById_cons. cbn [item_id].
    case_decide; [|done]. rewrite pruneNode_Some, ids_node_cons.
    by intros [->|[?|?]%elem_of_app]%elem_of_cons.
Qed.

(** The nodes of the pruned tree are the kept nodes of the input, each with
    its children pruned. *)
Lemma InTree_removeItemById items id m :
  InTree m (removeItemById items id)
  ↔ ∃ n, Kept id n items ∧ m = pruneNode id n.
Proof.
  revert items. apply (forest_ind_list (λ items,
    InTree m (removeItemById items id)
    ↔ ∃ n, Kept id n items ∧ m = pruneNode id n)).
  - split; [by intros ?%InTree_nil|]. by intros (n & ?%Kept_nil & _).
  - intros i l r IH. rewrite removeItemById_cons. cbn [item_id].
    setoid_rewrite Kept_cons. cbn [item_id children_or_nil item_children
      default from_option Datatypes.id].
    case_decide as Hi.
    + rewrite InTree_cons, IH. cbn [pruneNode children_or_nil item_children
        default from_option Datatypes.id].
      split.
      * intros [->|[?%InTree_nil|(n & ? & ->)]]; [|done|].
        -- exists (mkItem i l None). split; [by left|done].
        -- exists n. split; [right; right|]; done.
      * intros (n & [[-> _]|[[_ ?%Kept_nil]|?]] & ->); [by left|done|].
        right; right. eauto.
    + rewrite IH. split.
      * intros (n & ? & ->). exists n. split; [right; right|]; done.
      * intros (n & [[-> ?]|[[? _]|?]] & ->); [done..|]. eauto.
  - intros i l cs r IHc IHr. rewrite removeItemById_cons. cbn [item_id].
    setoid_rewrite Kept_cons. cbn [item_id children_or_nil item_children
      default from_option Datatypes.id].
    case_decide as Hi.
    + rewrite pruneNode_Some, InTree_cons.
      cbn [children_or_nil item_children default from_option Datatypes.id].
      rewrite IHc, IHr. split.
      * intros [->|[(n & ? & ->)|(n & ? & ->)]].
        -- exists (mkItem i l (Some cs)). split; [by left|].
           by rewrite pruneNode_Some.
        -- exists n. split; [right; left|]; done.
        -- exists n. split; [right; right|]; done.
      * intros (n & [[-> _]|[[_ ?]|?]] & ->).
        -- left. by rewrite pruneNode_Some.
        -- right; left. eauto.
        -- right; right. eauto.
    + rewrite IHr. split.
      * intros (n & ? & ->). exists n. split; [right; right|]; done.
      * intros (n & [[-> ?]|[[? _]|?]] & ->); [done..|]. eauto.
Qed.

(** C10: [removeItemById] leaves no node with the given id, subtrees
    included: the nodes of the result are the nodes of the input that have
    this id neither themselves nor in an ancestor, each with its children
    pruned in turn.  It does not collapse a children list it empties: a
    kept parent whose only child has the id is, in the result, the same node
    with an explicit empty children list.  On a tree with distinct ids the
    ids of the result are those of the input without the ids of the removed
    subtree. *)
Theorem removeItemById_prunes_without_collapsing
    (items : list MenuItem) (id : string) :
  (id ∉ ids (removeItemById items id))
  ∧ (∀ m, InTree m (removeItemById items id)
          ↔ ∃ n, Kept id n items ∧ m = pruneNode id n)
  ∧ (∀ p l c, Kept id (mkItem p l (Some [c])) items → item_id c = id →
              InTree (mkItem p l (Some [])) (removeItemById items id))
  ∧ (NoDup (ids items) → ∀ n, InTree n items → item_id n = id →
       ids (removeItemById items id) = filter (λ x, x ∉ node_ids n) (ids items)
       ∧ ∀ p l, InTree (mkItem p l (Some [n])) items →
                InTree (mkItem p l (Some [])) (removeItemById items id)).
Proof.
  assert (Honly : ∀ p l c, Kept id (mkItem p l (Some [c])) items →
            item_id c = id →
            InTree (mkItem p l (Some [])) (removeItemById items id)).
  { intros p l c Hk Hc. apply InTree_removeItemById. eexists. split; [done|].
    rewrite pruneNode_Some, removeItemById_cons, decide_False; [done|].
    intros Hx. by apply Hx. }
  split; [apply removeItemById_no_id|].
  split; [apply InTree_removeItemById|].
  split; [done|].
  intros Hnd n Hn Hid. split; [by apply removeItemById_ids|].
  intros p l Hp. apply (Honly p l n); [|done].
  apply NoDup_Kept; [done..|].
  change (id ∈ ids [n]). rewrite ids_cons, node_ids_eq, Hid. by left.
Qed.

Lemma removeItemById_prunes_without_collapsing_witness :
  removeItemById nested_then_root "a1"
  = [mkItem "A" "A" (Some []); leaf "B" "B"]
  ∧ InTree (mkItem "A" "A" (Some [])) (removeItemById nested_then_root "a1")
  ∧ ids (removeItemById nested_then_root "a1")
    = filter (λ x, x ∉ node_ids (leaf "a1" "A1")) (ids nested_then_root).
Proof.
  pose proof (removeItemById_prunes_without_collapsing nested_then_root "a1")
    as (_ & _ & Honly & Hids).
  split; [reflexivity|]. split.
  - apply (Honly "A" "A" (leaf "a1" "A1")); [|reflexivity].
    constructor; [by left|discriminate].
  - apply Hids.
    + apply (bool_decide_unpack _). vm_compute. exact I.
    + apply InTree_cons. right; left. apply InTree_cons. by left.
    + reflexivity.
Defined.

(** ** Properties of removal *)

Lemma removeStep_eq id i l c st :
  removeStep id (mkItem i l c) st
  = if decide (i = id) then (Some (mkItem i l c), st.2)
    else match c with
         | Some ((_ :: _) as cs) =>
             let r := removeItemFromTree cs id in
             (match r.1 with Some x => Some x | None => st.1 end,
              st.2 ++ [mkItem i l (nonempty_or_absent r.2)])
         | _ => (st.1, st.2 ++ [mkItem i l c])
         end.
Proof.
  cbn [removeStep]. case_decide; [done|].
  destruct c as [[|x r]|]; [done| |done].
  cbv zeta. unfold removeItemFromTree. cbn [foldl].
  generalize (removeStep id x (None, [])).
  induction r as [|y r IH]; intros s; [done|].
  cbn [foldl]. apply IH.
Qed.

Lemma removeStep_snd id item st :
  (removeStep id item st).2 = st.2 ++ (removeStep id item (None, [])).2.
Proof.
  destruct item as [i l c]. rewrite !removeStep_eq.
  case_decide; [by rewrite app_nil_r|].
  by destruct c as [[|x r]|].
Qed.

(** What one item contributes to the new tree. *)
Lemma removeItemFromTree_snd tree id :
  (removeItemFromTree tree id).2
  = flat_map (λ item, (removeStep id item (None, [])).2) tree.
Proof.
  unfold removeItemFromTree.
  assert (H : ∀ st, (foldl (λ st item, removeStep id item st) st tree).2
            = st.2 ++ flat_map (λ item, (removeStep id item (None, [])).2) tree).
  { induction tree as [|x r IH]; intros st; cbn [foldl flat_map].
    - by rewrite app_nil_r.
    - rewrite IH, removeStep_snd. by rewrite <- app_assoc. }
  by rewrite H.
Qed.

Lemma removeItemFromTree_snd_cons x r id :
  (removeItemFromTree (x :: r) id).2
  = (removeStep id x (None, [])).2 ++ (removeItemFromTree r id).2.
Proof. by rewrite !removeItemFromTree_snd. Qed.

Lemma InTree_app n t1 t2 : InTree n (t1 ++ t2) ↔ InTree n t1 ∨ InTree n t2.
Proof.
  induction t1 as [|x r IH]; cbn [app].
  - split; [auto|]. intros [H|H]; [by apply InTree_nil in H|done].
  - rewrite !InTree_cons, IH. tauto.
Qed.

Lemma InTree_singleton n x :
  InTree n [x] ↔ n = x ∨ InTree n (children_or_nil x).
Proof.
  rewrite InTree_cons. split; [|tauto].
  intros [?|[?|H]]; [tauto..|]. by apply InTree_nil in H.
Qed.

Lemma removeItemFromTree_inherits_empty_lists tree id n :
  InTree n (removeItemFromTree tree id).2 → item_children n = Some [] →
  InTree n tree.
Proof.
  intros Hn Hc. revert tree Hn.
  apply (forest_ind_list (λ tree,
    InTree n (removeItemFromTree tree id).2 → InTree n tree)).
  - intros H. by apply InTree_nil in H.
  - intros i l r IH. rewrite removeItemFromTree_snd_cons, removeStep_eq.
    rewrite InTree_app, InTree_cons. case_decide; cbn [snd app].
    + intros [Hx|Hx]; [by apply InTree_nil in Hx|auto].
    + rewrite InTree_singleton. intros [[->|Hx]|Hx]; auto.
  - intros i l cs r IHc IHr. rewrite removeItemFromTree_snd_cons, removeStep_eq.
    rewrite InTree_app, InTree_cons. case_decide.
    + cbn [snd]. intros [Hx|Hx]; [by apply InTree_nil in Hx|auto].
    + destruct cs as [|y cs].
      * cbn [snd app]. rewrite InTree_singleton. intros [[->|Hx]|Hx]; auto.
      * cbv zeta. cbn [snd app]. rewrite InTree_singleton.
        intros [[->|Hx]|Hx]; [| |auto].
        -- cbn [item_children] in Hc.
           by destruct (removeItemFromTree (y :: cs) id).2.
        -- right; left. cbn [children_or_nil item_children default] in *.
           apply IHc.
           destruct (removeItemFromTree (y :: cs) id).2; [|done].
           by apply InTree_nil in Hx.
Qed.


Lemma NoDup_flat_map_elem {A B} (f : A → list B) (l : list A) (x : A) :
  x ∈ l → NoDup (flat_map f l) → NoDup (f x).
Proof.
  induction l as [|a l IH]; [by intros ?%not_elem_of_nil|].
  cbn [flat_map]. intros [->|Hx]%elem_of_cons [? [? ?]]%NoDup_app; auto.
Qed.

Lemma InTree_NoDup m t : InTree m t → NoDup (ids t) → NoDup (node_ids m).
Proof.
  induction 1 as [t Hin|i l cs t Hin Hsub IH]; intros Hnd.
  - by eapply NoDup_flat_map_elem.
  - apply IH. eapply (NoDup_flat_map_elem node_ids) in Hnd; [|done].
    cbn [node_ids] in Hnd. by apply NoDup_cons in Hnd as [_ ?].
Qed.

Lemma InTree_removeStep tree id m m' :
  Kept id m tree → m' ∈ (removeStep id m (None, [])).2 →
  InTree m' (removeItemFromTree tree id).2.
Proof.
  intros Hk Hm'. induction Hk as [t Hin Hne|i l cs t Hin Hne Hsub IH];
    rewrite removeItemFromTree_snd.
  - constructor. apply elem_of_flat_map. eauto.
  - destruct cs as [|y cs]; [by apply Kept_nil in Hsub|].
    econstructor 2; [|exact IH].
    apply elem_of_flat_map. eexists. split; [exact Hin|].
    rewrite removeStep_eq, decide_False by done. cbv zeta. cbn [snd app].
    destruct (removeItemFromTree (y :: cs) id).2 eqn:E;
      [by apply InTree_nil in IH|].
    by left.
Qed.

(** C9, as amended: in the tree returned by [removeItemFromTree], a node
    with an explicit empty children list is a node of the input that had it
    already, so the removal creates none; a parent whose only child was
    removed has its children absent; and a tree free of explicit empty
    children lists stays free of them. *)
Theorem removeItemFromTree_collapses_emptied_list
    (tree : list MenuItem) (id : string) :
  (∀ n, InTree n (removeItemFromTree tree id).2 →
        item_children n = Some [] → InTree n tree)
  ∧ (∀ p l n, Kept id (mkItem p l (Some [n])) tree → item_id n = id →
              InTree (mkItem p l None) (removeItemFromTree tree id).2)
  ∧ (NoDup (ids tree) →
     ∀ p l n, InTree (mkItem p l (Some [n])) tree → item_id n = id →
              InTree (mkItem p l None) (removeItemFromTree tree id).2)
  ∧ (¬ has_empty_children tree →
     ¬ has_empty_children (removeItemFromTree tree id).2).
Proof.
  assert (Honly : ∀ p l n, Kept id (mkItem p l (Some [n])) tree →
            item_id n = id →
            InTree (mkItem p l None) (removeItemFromTree tree id).2).
  { intros p l n Hk Hid. eapply InTree_removeStep; [done|].
    assert (p ≠ id) by apply (Kept_id _ _ _ Hk).
    rewrite removeStep_eq, decide_False by done.
    cbv zeta. rewrite removeItemFromTree_snd_cons.
    destruct n as [i' l' c']. cbn [item_id] in Hid. subst i'.
    rewrite removeStep_eq, decide_True by done.
    cbn. by left. }
  split; [|split; [|split]].
  - intros n. apply removeItemFromTree_inherits_empty_lists.
  - done.
  - intros Hnd p l n Hp Hid. apply (Honly p l n); [|done].
    apply NoDup_Kept; [done..|].
    change (id ∈ ids [n]). rewrite ids_cons, node_ids_eq, Hid. by left.
  - intros Hno (i & l & Hx). apply Hno. exists i, l.
    by eapply removeItemFromTree_inherits_empty_lists.
Qed.

Lemma removeItemFromTree_collapses_emptied_list_witness :
  InTree (mkItem "A" "A" None) (removeItemFromTree nested_then_root "a1").2
  ∧ ¬ has_empty_children (removeItemFromTree nested_then_root "a1").2.
Proof.
  pose proof (removeItemFromTree_collapses_emptied_list nested_then_root "a1")
    as (_ & _ & Hcollapse & Hnone).
  split.
  - apply (Hcollapse
             ltac:(apply (bool_decide_unpack _); vm_compute; exact I)
             "A" "A" (leaf "a1" "A1")).
    + apply InTree_cons. by left.
    + reflexivity.
  - apply Hnone. intros (i & l & Hx).
    repeat (apply InTree_cons in Hx as [Hx|[Hx|Hx]];
            [discriminate Hx|simpl in Hx|]);
      by apply InTree_nil in Hx.
Defined.

(** C9, the statement as written fails: a node that had an explicit empty
    children list before the removal, away from the removed node, still has
    it afterwards. *)
Lemma removeItemFromTree_keeps_empty_list :
  ¬ remove_leaves_no_empty_list empty_list_then_root "b".
Proof.
  intros H. apply H.
  - vm_compute. set_solver.
  - exists "a", "A". vm_compute. apply InTree_cons. by left.
Qed.

(** ** Properties of the ancestry check *)

Lemma checkSubtree_cons c x r :
  checkSubtree c (x :: r) = checkNode c x || checkSubtree c r.
Proof. reflexivity. Qed.

Lemma checkSubtree_spec c t : checkSubtree c t = true ↔ c ∈ ids t.
Proof.
  revert t. apply (forest_ind_list (λ t, checkSubtree c t = true ↔ c ∈ ids t)).
  - split; [done|]. by intros ?%not_elem_of_nil.
  - intros i l r IH. rewrite checkSubtree_cons, ids_leaf_cons. cbn [checkNode].
    rewrite orb_false_r, orb_true_iff, bool_decide_eq_true, elem_of_cons, IH.
    intuition congruence.
  - intros i l cs r IHc IHr.
    rewrite checkSubtree_cons, ids_node_cons. cbn [checkNode].
    fold (checkSubtree c cs).
    rewrite !orb_true_iff, bool_decide_eq_true, elem_of_cons, elem_of_app.
    rewrite IHc, IHr. intuition congruence.
Qed.

Lemma findStep_eq a c i l ch :
  findStep a c (mkItem i l ch)
  = if decide (i = a) then Some (checkSubtree c (default [] ch))
    else if findInChildren a c (default [] ch) then Some true else None.
Proof.
  destruct ch as [cs|]; cbn [findStep default from_option id];
    case_decide; try done.
  match goal with |- (if ?a then _ else _) = (if ?b then _ else _) =>
    replace a with b; [done|] end.
  induction cs as [|x r IH]; [done|].
  cbn [findInChildren]. by rewrite IH.
Qed.

Lemma findInChildren_cons a c x r :
  findInChildren a c (x :: r)
  = match findStep a c x with
    | Some b => b
    | None => findInChildren a c r
    end.
Proof. reflexivity. Qed.

Lemma findInChildren_absent a c t :
  a ∉ ids t → findInChildren a c t = false.
Proof.
  revert t. apply (forest_ind_list (λ t, a ∉ ids t → findInChildren a c t = false)).
  - done.
  - intros i l r IH. rewrite ids_leaf_cons, not_elem_of_cons. intros [? ?].
    rewrite findInChildren_cons, findStep_eq, decide_False by done.
    cbn [default from_option id findInChildren]. auto.
  - intros i l cs r IHc IHr.
    rewrite ids_node_cons, not_elem_of_cons, not_elem_of_app. intros [? [? ?]].
    rewrite findInChildren_cons, findStep_eq, decide_False by done.
    cbn [default from_option id]. rewrite IHc by done. auto.
Qed.

Lemma findInChildren_sound a c t :
  findInChildren a c t = true → strictly_inside t a c.
Proof.
  revert t. apply (forest_ind_list (λ t,
    findInChildren a c t = true → strictly_inside t a c)).
  - done.
  - intros i l r IH. rewrite findInChildren_cons, findStep_eq.
    cbn [default from_option id findInChildren checkSubtree existsb].
    case_decide; [done|]. intros (n & ? & ? & ?)%IH.
    exists n. rewrite InTree_cons. auto.
  - intros i l cs r IHc IHr. rewrite findInChildren_cons, findStep_eq.
    cbn [default from_option id]. case_decide as Hi.
    + intros Hc%checkSubtree_spec. eexists. rewrite InTree_cons.
      split; [by left|]. done.
    + destruct (findInChildren a c cs) eqn:E.
      * intros _. destruct (IHc eq_refl) as (n & ? & ? & ?).
        exists n. rewrite InTree_cons. auto.
      * intros (n & ? & ? & ?)%IHr. exists n. rewrite InTree_cons. auto.
Qed.

Lemma findInChildren_complete a c t :
  NoDup (ids t) → strictly_inside t a c → findInChildren a c t = true.
Proof.
  intros Hnd (n & Hn & Ha & Hc). revert t Hnd Hn.
  apply (forest_ind_list (λ t, NoDup (ids t) → InTree n t →
    findInChildren a c t = true)).
  - intros _ Hx. by apply InTree_nil in Hx.
  - intros i l r IH. rewrite ids_leaf_cons.
    intros [Hi Hr]%NoDup_cons Hn.
    apply InTree_cons in Hn as [->|[Hn|Hn]].
    + by apply not_elem_of_nil in Hc.
    + by apply InTree_nil in Hn.
    + rewrite findInChildren_cons, findStep_eq, decide_False.
      * cbn [default from_option id findInChildren]. auto.
      * intros ->. apply InTree_id in Hn. by rewrite Ha in Hn.
  - intros i l cs r IHc IHr. rewrite ids_node_cons.
    intros [Hi [Hcs [Hd Hr]]%NoDup_app]%NoDup_cons Hn.
    rewrite elem_of_app in Hi.
    rewrite findInChildren_cons, findStep_eq. cbn [default from_option id].
    apply InTree_cons in Hn as [->|[Hn|Hn]].
    + cbn [item_id] in Ha. rewrite decide_True by done.
      by apply checkSubtree_spec.
    + cbn [children_or_nil item_children default] in Hn.
      rewrite decide_False.
      * by rewrite IHc.
      * intros ->. apply InTree_id in Hn. rewrite Ha in Hn. tauto.
    + pose proof (InTree_id _ _ Hn) as Hin. rewrite Ha in Hin.
      rewrite decide_False by (intros ->; tauto).
      rewrite findInChildren_absent; [auto|].
      intros Hx. by destruct (Hd _ Hx).
Qed.

(** C6: on a tree with distinct identifiers, [isDescendant] answers true
    exactly when the candidate names a node strictly inside the subtree of
    the node named by the ancestor id; it answers false when the ancestor id
    is not in the tree, when its node has no children, and when candidate
    and ancestor are the same id. *)
Theorem isDescendant_strict
    (tree : list MenuItem) (ancestorId candidateId : string) :
  NoDup (ids tree) →
  (isDescendant tree ancestorId candidateId = true
     ↔ strictly_inside tree ancestorId candidateId)
  ∧ (ancestorId ∉ ids tree → isDescendant tree ancestorId candidateId = false)
  ∧ (∀ n, InTree n tree → item_id n = ancestorId → children_or_nil n = [] →
          isDescendant tree ancestorId candidateId = false)
  ∧ isDescendant tree ancestorId ancestorId = false.
Proof.
  intros Hnd. unfold isDescendant. split; [|split; [|split]].
  - split; [apply findInChildren_sound|by apply findInChildren_complete].
  - apply findInChildren_absent.
  - intros n Hn Ha Hc. apply not_true_is_false.
    intros (m & Hm & Hma & Hmc)%findInChildren_sound.
    assert (m = n) as -> by (eapply InTree_unique; eauto; congruence).
    rewrite Hc in Hmc. by apply not_elem_of_nil in Hmc.
  - apply not_true_is_false.
    intros (m & Hm & Hma & Hmc)%findInChildren_sound.
    pose proof (InTree_NoDup _ _ Hm Hnd) as Hm'.
    rewrite node_ids_eq, Hma in Hm'. by apply NoDup_cons in Hm' as [? _].
Qed.

Lemma isDescendant_strict_witness :
  (isDescendant chain "A" "C" = true ↔ strictly_inside chain "A" "C")
  ∧ ("A" ∉ ids chain → isDescendant chain "A" "C" = false)
  ∧ (∀ n, InTree n chain → item_id n = "A" → children_or_nil n = [] →
          isDescendant chain "A" "C" = false)
  ∧ isDescendant chain "A" "A" = false.
Proof.
  apply (isDescendant_strict chain "A" "C").
  apply (bool_decide_unpack _). vm_compute. exact I.
Defined.

(** The cycle-rejection scenario on the chain [A], [B], [C]. *)
Example isDescendant_chain :
  isDescendant chain "A" "C" = true
  ∧ isDescendant chain "C" "A" = false
  ∧ isDescendant chain "A" "A" = false.
Proof. repeat split. Qed.

(** ** Properties of insertion *)

Lemma node_size_eq n : node_size n = S (forest_size (children_or_nil n)).
Proof. by destruct n as [i l [cs|]]. Qed.

Lemma forest_size_cons x r : forest_size (x :: r) = node_size x + forest_size r.
Proof. reflexivity. Qed.

Lemma forest_size_elem n t : n ∈ t → node_size n ≤ forest_size t.
Proof. induction 1; rewrite forest_size_cons; lia. Qed.

Lemma InTree_size n t : InTree n t → node_size n ≤ forest_size t.
Proof.
  induction 1 as [t Hin|i l cs t Hin Hsub IH].
  - by apply forest_size_elem.
  - apply forest_size_elem in Hin. rewrite node_size_eq in Hin.
    cbn [children_or_nil item_children default from_option id] in Hin. lia.
Qed.

Lemma copies_cons n x r : copies n (x :: r) = node_copies n x + copies n r.
Proof. reflexivity. Qed.

Lemma copies_app n t1 t2 : copies n (t1 ++ t2) = copies n t1 + copies n t2.
Proof. unfold copies. by rewrite map_app, list_sum_app. Qed.

Lemma node_copies_eq n x :
  node_copies n x
  = (if decide (x = n) then 1 else 0) + copies n (children_or_nil x).
Proof. by destruct x as [i l [cs|]]. Qed.

Lemma copies_InTree n t : copies n t ≠ 0 → InTree n t.
Proof.
  revert t. apply (forest_ind_list (λ t, copies n t ≠ 0 → InTree n t)).
  - done.
  - intros i l r IH. rewrite copies_cons, node_copies_eq, InTree_cons.
    cbn [children_or_nil item_children default from_option id].
    change (copies n []) with 0.
    case_decide; [auto|]. intros Hx. right; right. apply IH. lia.
  - intros i l cs r IHc IHr. rewrite copies_cons, node_copies_eq, InTree_cons.
    cbn [children_or_nil item_children default from_option id].
    case_decide; [auto|]. intros Hx.
    destruct (decide (copies n cs = 0)); [|auto].
    right; right. apply IHr. lia.
Qed.

Lemma copies_absent n t : item_id n ∉ ids t → copies n t = 0.
Proof.
  intros Hn. destruct (decide (copies n t = 0)) as [|Hx]; [done|].
  apply copies_InTree, InTree_id in Hx. done.
Qed.

Lemma node_copies_self n : node_copies n n = 1.
Proof.
  rewrite node_copies_eq, decide_True by done.
  destruct (decide (copies n (children_or_nil n) = 0)) as [->|Hx]; [done|].
  apply copies_InTree, InTree_size in Hx. rewrite node_size_eq in Hx. lia.
Qed.

Lemma node_copies_other n x :
  item_id x ≠ item_id n →
  node_copies n x = copies n (children_or_nil x).
Proof.
  intros Hx. rewrite node_copies_eq, decide_False; [done|]. by intros ->.
Qed.

Lemma insertInside_absent item targetId t :
  targetId ∉ ids t → map (insertInside item targetId) t = t.
Proof.
  revert t. apply (forest_ind_list (λ t,
    targetId ∉ ids t → map (insertInside item targetId) t = t)).
  - done.
  - intros i l r IH. rewrite ids_leaf_cons, not_elem_of_cons. intros [? ?].
    cbn [map insertInside]. rewrite decide_False by done. by rewrite IH.
  - intros i l cs r IHc IHr.
    rewrite ids_node_cons, not_elem_of_cons, not_elem_of_app. intros [? [? ?]].
    cbn [map insertInside]. rewrite decide_False by done.
    by rewrite IHc, IHr.
Qed.

Lemma insertBeside_absent item targetId pos t :
  targetId ∉ ids t → flat_map (insertBeside item targetId pos) t = t.
Proof.
  revert t. apply (forest_ind_list (λ t,
    targetId ∉ ids t → flat_map (insertBeside item targetId pos) t = t)).
  - done.
  - intros i l r IH. rewrite ids_leaf_cons, not_elem_of_cons. intros [? ?].
    cbn [flat_map insertBeside]. rewrite decide_False by done.
    by rewrite IH.
  - intros i l cs r IHc IHr.
    rewrite ids_node_cons, not_elem_of_cons, not_elem_of_app. intros [? [? ?]].
    cbn [flat_map insertBeside]. rewrite decide_False by done.
    rewrite IHr by done. destruct cs as [|y cs]; [done|].
    by rewrite IHc.
Qed.

Lemma insertItemInTree_absent tree item targetId position :
  targetId ∉ ids tree → insertItemInTree tree item targetId position = tree.
Proof.
  intros H. destruct position; cbn [insertItemInTree];
    auto using insertInside_absent, insertBeside_absent.
Qed.

Lemma insertInside_present item targetId t :
  NoDup (ids t) → targetId ∈ ids t → item_id item ∉ ids t →
  copies item (map (insertInside item targetId) t) = 1.
Proof.
  revert t. apply (forest_ind_list (λ t,
    NoDup (ids t) → targetId ∈ ids t → item_id item ∉ ids t →
    copies item (map (insertInside item targetId) t) = 1)).
  - intros _ Hx. by apply not_elem_of_nil in Hx.
  - intros i l r IH. rewrite ids_leaf_cons.
    intros [Hi Hr]%NoDup_cons Ht [Hne Hni]%not_elem_of_cons.
    cbn [map insertInside]. rewrite copies_cons.
    case_decide as Hit.
    + subst i. rewrite node_copies_other by done.
      cbn [children_or_nil item_children default from_option id app].
      rewrite copies_cons, node_copies_self.
      rewrite insertInside_absent by done.
      rewrite (copies_absent item r) by done. done.
    + apply elem_of_cons in Ht as [->|Ht]; [done|].
      rewrite node_copies_other by done.
      rewrite IH by done. done.
  - intros i l cs r IHc IHr. rewrite ids_node_cons.
    intros [Hi [Hcs [Hd Hr]]%NoDup_app]%NoDup_cons Ht
           [Hne [Hnc Hnr]%not_elem_of_app]%not_elem_of_cons.
    rewrite elem_of_app in Hi.
    cbn [map insertInside]. rewrite copies_cons.
    case_decide as Hit.
    + subst i. rewrite node_copies_other by done.
      cbn [children_or_nil item_children default from_option id].
      rewrite copies_app, copies_cons, node_copies_self.
      rewrite insertInside_absent by tauto.
      rewrite (copies_absent item r), (copies_absent item cs) by done. done.
    + rewrite node_copies_other by done.
      cbn [children_or_nil item_children default from_option id].
      apply elem_of_cons in Ht as [->|[Ht|Ht]%elem_of_app]; [done| |].
      * rewrite IHc by done.
        rewrite (insertInside_absent _ _ r) by (intros Hx; by destruct (Hd _ Ht)).
        by rewrite (copies_absent item r).
      * rewrite (insertInside_absent _ _ cs) by (intros Hx; by destruct (Hd _ Hx)).
        rewrite (copies_absent item cs) by done.
        by rewrite IHr.
Qed.

Lemma insertBeside_present item targetId pos t :
  NoDup (ids t) → targetId ∈ ids t → item_id item ∉ ids t →
  copies item (flat_map (insertBeside item targetId pos) t) = 1.
Proof.
  revert t. apply (forest_ind_list (λ t,
    NoDup (ids t) → targetId ∈ ids t → item_id item ∉ ids t →
    copies item (flat_map (insertBeside item targetId pos) t) = 1)).
  - intros _ Hx. by apply not_elem_of_nil in Hx.
  - intros i l r IH. rewrite ids_leaf_cons.
    intros [Hi Hr]%NoDup_cons Ht [Hne Hni]%not_elem_of_cons.
    cbn [flat_map insertBeside]. rewrite copies_app.
    case_decide as Hit.
    + subst i. rewrite insertBeside_absent by done.
      rewrite (copies_absent item r) by done.
      destruct pos; rewrite !copies_cons, node_copies_self,
        node_copies_other by done; done.
    + apply elem_of_cons in Ht as [->|Ht]; [done|].
      rewrite copies_cons, node_copies_other by done.
      rewrite IH by done. done.
  - intros i l cs r IHc IHr. rewrite ids_node_cons.
    intros [Hi [Hcs [Hd Hr]]%NoDup_app]%NoDup_cons Ht
           [Hne [Hnc Hnr]%not_elem_of_app]%not_elem_of_cons.
    rewrite elem_of_app in Hi.
    cbn [flat_map insertBeside]. rewrite copies_app.
    case_decide as Hit.
    + subst i. rewrite insertBeside_absent by tauto.
      rewrite (copies_absent item r) by done.
      destruct pos; rewrite !copies_cons, node_copies_self,
        node_copies_other by done;
        cbn [children_or_nil item_children default from_option id];
        rewrite (copies_absent item cs) by done; done.
    + apply elem_of_cons in Ht as [->|[Ht|Ht]%elem_of_app]; [done| |].
      * destruct cs as [|y cs]; [by apply not_elem_of_nil in Ht|].
        rewrite copies_cons, node_copies_other by done.
        cbn [children_or_nil item_children default from_option id].
        rewrite IHc by done.
        rewrite (insertBeside_absent _ _ _ r) by (intros Hx; by destruct (Hd _ Ht)).
        by rewrite (copies_absent item r).
      * assert (Hcs' : flat_map (insertBeside item targetId pos)
                        [mkItem i l (Some cs)] = [mkItem i l (Some cs)]).
        { apply insertBeside_absent. rewrite ids_node_cons.
          rewrite not_elem_of_cons, not_elem_of_app.
          split; [done|]. split; [|by intros ?%not_elem_of_nil].
          intros Hx. by destruct (Hd _ Hx). }
        cbn [flat_map insertBeside] in Hcs'. rewrite decide_False in Hcs' by done.
        rewrite app_nil_r in Hcs'. rewrite Hcs'.
        rewrite copies_cons, node_copies_other by done.
        cbn [children_or_nil item_children default from_option id].
        rewrite (copies_absent item cs) by done.
        by rewrite IHr.
Qed.

(** C5, as amended: for a tree with distinct identifiers and a node whose
    id is not in the tree, the result of the insertion holds exactly one
    copy of the node, subtree included, when the target id is in the tree;
    when it is not, the result is the input tree and holds no copy. *)
Theorem insertItemInTree_one_copy (tree : list MenuItem) (item : MenuItem)
    (targetId : string) (position : Position) :
  NoDup (ids tree) → item_id item ∉ ids tree →
  (targetId ∈ ids tree →
     copies item (insertItemInTree tree item targetId position) = 1)
  ∧ (targetId ∉ ids tree →
     insertItemInTree tree item targetId position = tree
     ∧ copies item (insertItemInTree tree item targetId position) = 0).
Proof.
  intros Hnd Hitem. split.
  - intros Ht. destruct position; cbn [insertItemInTree];
      auto using insertInside_present, insertBeside_present.
  - intros Ht. rewrite insertItemInTree_absent by done.
    split; [done|]. by apply copies_absent.
Qed.

Lemma insertItemInTree_one_copy_witness :
  ("about" ∈ ids (scenario "About Us" "Collections" "Spring" "Summer") →
     copies (leaf "x" "X")
       (insertItemInTree (scenario "About Us" "Collections" "Spring" "Summer")
          (leaf "x" "X") "about" after) = 1)
  ∧ ("about" ∉ ids (scenario "About Us" "Collections" "Spring" "Summer") →
     insertItemInTree (scenario "About Us" "Collections" "Spring" "Summer")
       (leaf "x" "X") "about" after
     = scenario "About Us" "Collections" "Spring" "Summer"
     ∧ copies (leaf "x" "X")
         (insertItemInTree (scenario "About Us" "Collections" "Spring" "Summer")
            (leaf "x" "X") "about" after) = 0).
Proof.
  apply (insertItemInTree_one_copy
           (scenario "About Us" "Collections" "Spring" "Summer")
           (leaf "x" "X") "about" after).
  - apply (bool_decide_unpack _). vm_compute. exact I.
  - apply (bool_decide_unpack _). vm_compute. exact I.
Defined.

(** C5, the statement as written fails: a node that the tree holds already
    is in the result twice after an insertion. *)
Lemma insertItemInTree_existing_node_twice :
  ¬ insert_one_copy [leaf "x" "X"] (leaf "x" "X") "x" after.
Proof.
  intros H. destruct H as [H _].
  - apply (bool_decide_unpack _). vm_compute. exact I.
  - assert (Hx : "x" ∈ ids [leaf "x" "X"]) by (vm_compute; by left).
    specialize (H Hx). vm_compute in H. discriminate.
Qed.

(** The scenario of the specification: a new node after [about]. *)
Example insert_after_about (la lc lsp lsu lx : string) :
  insertItemInTree (scenario la lc lsp lsu) (leaf "x" lx) "about" after
  = [leaf "about" la; leaf "x" lx;
     mkItem "collections" lc (Some [leaf "spring" lsp; leaf "summer" lsu])].
Proof. reflexivity. Qed.

(** ** The shells after the two loops of the rebuild *)

Lemma map_fmap {A B} (f : A → B) (l : list A) : map f l = f <$> l.
Proof. reflexivity. Qed.

Lemma createShells_snoc l e :
  createShells (l ++ [e])
  = <[fid e := mkShell (fid e) (flabel e) []]> (createShells l).
Proof. unfold createShells. by rewrite foldl_snoc. Qed.

Lemma createShells_lookup_None l k :
  k ∉ fid <$> l → createShells l !! k = None.
Proof.
  induction l as [|e l IH] using rev_ind; [done|].
  rewrite fmap_app, not_elem_of_app. cbn [fmap list_fmap].
  rewrite not_elem_of_cons. intros [? [? _]].
  rewrite createShells_snoc, lookup_insert_ne by done. auto.
Qed.

Lemma createShells_lookup_Some l k sh :
  createShells l !! k = Some sh →
  k ∈ fid <$> l ∧ s_id sh = k ∧ s_children sh = [].
Proof.
  induction l as [|e l IH] using rev_ind; [done|].
  rewrite createShells_snoc, fmap_app, elem_of_app. cbn [fmap list_fmap].
  destruct (decide (fid e = k)) as [<-|Hne].
  - rewrite lookup_insert_eq. intros [= <-]. cbn. split; [|done].
    right. by left.
  - rewrite lookup_insert_ne by done. intros H. apply IH in H. tauto.
Qed.

Lemma createShells_lookup_elem l e :
  NoDup (fid <$> l) → e ∈ l →
  createShells l !! fid e = Some (mkShell (fid e) (flabel e) []).
Proof.
  induction l as [|x l IH] using rev_ind; [by intros _ ?%not_elem_of_nil|].
  rewrite fmap_app. cbn [fmap list_fmap].
  intros [Hl [Hd _]]%NoDup_app [He|He]%elem_of_app.
  - rewrite createShells_snoc, lookup_insert_ne; [auto|].
    intros Hx. apply (Hd (fid e)); [by apply list_elem_of_fmap_2|].
    rewrite Hx. by left.
  - apply list_elem_of_singleton in He as ->.
    by rewrite createShells_snoc, lookup_insert_eq.
Qed.

Lemma linkStep_lookup m e k :
  linkStep m e !! k
  = (λ sh, mkShell (s_id sh) (s_label sh)
             (s_children sh ++ (fid <$> linked_under m k [e]))) <$> m !! k.
Proof.
  unfold linkStep, linked_under. rewrite filter_cons, filter_nil.
  destruct (truthy (parentId e)) eqn:Ht.
  2:{ rewrite decide_False by (intros (? & ? & _); congruence). cbn.
      destruct (m !! k) as [[]|]; cbn; by rewrite ?app_nil_r. }
  destruct (parentId e) as [p|] eqn:Hp; [|done].
  destruct (m !! p) as [parent|] eqn:Hparent.
  - destruct (m !! fid e) as [cur|] eqn:Hcur.
    + destruct (decide (p = k)) as [->|Hne].
      * rewrite lookup_insert_eq, Hparent, decide_True by eauto. done.
      * rewrite lookup_insert_ne by done.
        rewrite decide_False by (intros (? & ? & _); congruence). cbn.
        destruct (m !! k) as [[]|]; cbn; by rewrite ?app_nil_r.
    + rewrite decide_False by (intros (_ & _ & []); congruence). cbn.
      destruct (m !! k) as [[]|]; cbn; by rewrite ?app_nil_r.
  - destruct (decide (p = k)) as [->|Hne].
    + by rewrite Hparent.
    + rewrite decide_False by (intros (_ & ? & _); congruence). cbn.
      destruct (m !! k) as [[]|]; cbn; by rewrite ?app_nil_r.
Qed.

Lemma linked_under_snoc m0 k l e :
  linked_under m0 k (l ++ [e]) = linked_under m0 k l ++ linked_under m0 k [e].
Proof. apply filter_app. Qed.

Lemma link_all_lookup m0 l k :
  foldl linkStep m0 l !! k
  = (λ sh, mkShell (s_id sh) (s_label sh)
             (s_children sh ++ (fid <$> linked_under m0 k l))) <$> m0 !! k.
Proof.
  revert k. induction l as [|e l IH] using rev_ind; intros k.
  - cbn. destruct (m0 !! k) as [[]|]; cbn; by rewrite ?app_nil_r.
  - rewrite foldl_snoc, linkStep_lookup, IH, linked_under_snoc, fmap_app.
    assert (Heq : linked_under (foldl linkStep m0 l) k [e]
                  = linked_under m0 k [e]).
    { apply list_filter_iff. intros x. rewrite IH, fmap_is_Some. done. }
    rewrite Heq. destruct (m0 !! k) as [[]|]; cbn; [|done].
    by rewrite app_assoc.
Qed.

Lemma filter_iff_elem {A} (P Q : A → Prop) `{!∀ x, Decision (P x)}
    `{!∀ x, Decision (Q x)} (l : list A) :
  (∀ x, x ∈ l → P x ↔ Q x) → filter P l = filter Q l.
Proof.
  induction l as [|a l IH]; intros Hpq; [done|].
  rewrite !filter_cons, IH by (intros x Hx; apply Hpq; by right).
  assert (P a ↔ Q a) by (apply Hpq; by left).
  repeat case_decide; tauto.
Qed.

Lemma createShells_is_Some l k :
  k ∈ fid <$> l → is_Some (createShells l !! k).
Proof.
  induction l as [|e l IH] using rev_ind; [by intros ?%not_elem_of_nil|].
  rewrite createShells_snoc, fmap_app, elem_of_app. cbn [fmap list_fmap].
  destruct (decide (fid e = k)) as [<-|Hne].
  - rewrite lookup_insert_eq. eauto.
  - rewrite lookup_insert_ne by done. intros [?|Hx]; [auto|].
    apply list_elem_of_singleton in Hx. congruence.
Qed.

(** The shell under [k] after both loops: its children are the entries with
    a truthy parent reference to [k], in list order. *)
Lemma rebuild_heap_lookup l k :
  og_heap (rebuildTreeFromFlat l) !! k
  = (λ sh, mkShell (s_id sh) (s_label sh)
       (fid <$> filter (λ e, truthy (parentId e) = true ∧ parentId e = Some k) l))
    <$> createShells l !! k.
Proof.
  cbn [rebuildTreeFromFlat og_heap]. rewrite link_all_lookup.
  destruct (createShells l !! k) as [sh|] eqn:Hk; [|done]. cbn.
  apply createShells_lookup_Some in Hk as (_ & _ & ->). cbn.
  do 3 f_equal. unfold linked_under.
  apply filter_iff_elem. intros e He.
  assert (is_Some (createShells l !! fid e))
    by (by apply createShells_is_Some, list_elem_of_fmap_2).
  tauto.
Qed.

Lemma truthy_Some k : truthy (Some k) = true ↔ k ≠ "".
Proof.
  cbn [truthy]. rewrite negb_true_iff, bool_decide_eq_false. done.
Qed.

(** For a key other than the empty string the children are the entries
    under that key. *)
Lemma rebuild_children l k sh :
  k ≠ "" → og_heap (rebuildTreeFromFlat l) !! k = Some sh →
  s_id sh = k ∧ s_children sh = fid <$> entries_under (Some k) l.
Proof.
  intros Hk. rewrite rebuild_heap_lookup.
  destruct (createShells l !! k) as [sh0|] eqn:E; [|done].
  intros [= <-]. cbn. apply createShells_lookup_Some in E as (_ & -> & _).
  split; [done|]. f_equal. apply list_filter_iff. intros e.
  split; [tauto|]. intros H. split; [|done]. rewrite H.
  by apply truthy_Some.
Qed.

Lemma rebuild_roots l :
  og_roots (rebuildTreeFromFlat l) = fid <$> entries_under None l.
Proof.
  cbn [rebuildTreeFromFlat og_roots]. rewrite map_fmap. f_equal.
  apply list_filter_iff. intros e. unfold is_root.
  by destruct (parentId e).
Qed.

Lemma NoDup_fid_inj l e e' :
  NoDup (fid <$> l) → e ∈ l → e' ∈ l → fid e = fid e' → e = e'.
Proof.
  induction l as [|a l IH]; [by intros _ ?%not_elem_of_nil|].
  cbn [fmap list_fmap]. intros [Ha Hl]%NoDup_cons.
  intros [->|He]%elem_of_cons [->|He']%elem_of_cons Heq; auto.
  - destruct Ha. rewrite Heq. by apply list_elem_of_fmap_2.
  - destruct Ha. rewrite <- Heq. by apply list_elem_of_fmap_2.
Qed.

Lemma rebuild_heap_id l k sh :
  og_heap (rebuildTreeFromFlat l) !! k = Some sh → s_id sh = k ∧ k ∈ fid <$> l.
Proof.
  rewrite rebuild_heap_lookup.
  destruct (createShells l !! k) as [sh0|] eqn:E; [|done].
  intros [= <-]. cbn. apply createShells_lookup_Some in E. tauto.
Qed.

(** The identifiers of a tree read from a map of shells are the key read
    and identifiers held in some [children] array. *)
Lemma readNode_ids (m : gmap string Shell) (x : string) :
  (∀ k sh, m !! k = Some sh → s_id sh = k) →
  (∀ k sh, m !! k = Some sh → x ∉ s_children sh) →
  ∀ fuel k n, readNode fuel m k = Some n → x ∈ node_ids n → x = k.
Proof.
  intros Hid Hno. induction fuel as [|f IH]; intros k n; [done|].
  cbn [readNode]. destruct (m !! k) as [sh|] eqn:Hk; [|done]. cbn.
  destruct (mapM (readNode f m) (s_children sh)) as [cs|] eqn:Hcs; [|done].
  cbn. intros [= <-]. cbn [node_ids].
  intros [->|Hx]%elem_of_cons; [by eapply Hid|].
  apply elem_of_flat_map in Hx as (c & Hc & Hx).
  apply mapM_Some in Hcs.
  apply list_elem_of_lookup in Hc as [j Hj].
  destruct (Forall2_lookup_r _ _ _ _ _ Hcs Hj) as (k' & Hk' & Hread).
  pose proof (IH _ _ Hread Hx) as ->.
  destruct (Hno _ _ Hk). by eapply list_elem_of_lookup_2.
Qed.

(** ** Properties of promote *)

Lemma siblings_in_rebuild l q :
  (q = None ∨ ∃ g, q = Some g ∧ g ≠ "" ∧ g ∈ fid <$> l) →
  siblings_in (rebuildTreeFromFlat l) q = Some (fid <$> entries_under q l).
Proof.
  intros [->|(g & -> & Hg & Hin)]; cbn [siblings_in].
  - by rewrite rebuild_roots.
  - destruct (og_heap (rebuildTreeFromFlat l) !! g) as [sh|] eqn:E.
    + cbn. apply rebuild_children in E as [_ E]; [|done]. by rewrite E.
    + rewrite rebuild_heap_lookup in E.
      apply createShells_is_Some in Hin as [sh Hsh]. by rewrite Hsh in E.
Qed.

Lemma or_null_id q : q ≠ Some "" → or_null q = q.
Proof.
  intros Hq. unfold or_null. destruct q as [g|]; [|done].
  destruct (truthy (Some g)) eqn:E; [done|].
  apply not_true_iff_false in E. rewrite truthy_Some in E.
  destruct (decide (g = "")) as [->|]; [done|tauto].
Qed.

(** C8, as amended: promote is a no-op on an entry whose parent reference
    is null.  On an entry with a parent in the list (no empty-string id
    involved) it sets the parent reference to that of the parent; the
    position in the flat list is kept, and after the rebuild the node sits
    among its new siblings in list order, after those that precede it in
    the flat list and before those that follow it. *)
Theorem promote_moves_up_in_list_order
    (flatList : list FlatItem) (id : string) (k : nat) (item : FlatItem) :
  list_find (λ x, fid x = id) flatList = Some (k, item) →
  (parentId item = None → promote flatList id = None)
  ∧ (∀ p parent,
       parentId item = Some p → p ≠ "" →
       find p flatList = Some parent → parentId parent ≠ Some "" →
       promote flatList id
       = Some (<[k := set_parentId (parentId parent) item]> flatList)
       ∧ ((parentId parent = None
           ∨ ∃ g, parentId parent = Some g ∧ g ∈ fid <$> flatList) →
          siblings_in
            (rebuildTreeFromFlat
               (<[k := set_parentId (parentId parent) item]> flatList))
            (parentId parent)
          = Some ((fid <$> entries_under (parentId parent) (take k flatList))
                  ++ id :: (fid <$> entries_under (parentId parent)
                                      (drop (S k) flatList))))).
Proof.
  intros Hfind. split.
  - intros Hroot. unfold promote. by rewrite Hfind, Hroot.
  - intros p parent Hp Hpne Hparent Hgrand.
    apply list_find_Some in Hfind as Hfind'. destruct Hfind' as (Hk & Hid & _).
    split.
    + unfold promote. rewrite Hfind, Hp.
      rewrite (proj2 (truthy_Some p)) by done.
      rewrite Hparent. cbn. by rewrite or_null_id.
    + intros Hq. rewrite siblings_in_rebuild.
      * f_equal. rewrite insert_take_drop by eauto using lookup_lt_Some.
        unfold entries_under. rewrite filter_app, filter_cons.
        rewrite decide_True by done.
        rewrite fmap_app. cbn. by rewrite Hid.
      * destruct Hq as [->|(g & Hg & Hin)]; [by left|right].
        exists g. split; [done|]. split; [congruence|].
        rewrite list_fmap_insert. cbn.
        rewrite list_insert_id; [done|]. by rewrite list_lookup_fmap, Hk.
Qed.

Lemma promote_moves_up_in_list_order_witness :
  promote (flattenWithParent nested_then_root None) "a1"
  = Some [mkFlat "A" "A" (Some [leaf "a1" "A1"]) None;
          mkFlat "a1" "A1" None None; mkFlat "B" "B" None None]
  ∧ siblings_in
      (rebuildTreeFromFlat
         [mkFlat "A" "A" (Some [leaf "a1" "A1"]) None;
          mkFlat "a1" "A1" None None; mkFlat "B" "B" None None])
      None
    = Some (["A"] ++ "a1" :: ["B"]).
Proof.
  pose proof (promote_moves_up_in_list_order
                (flattenWithParent nested_then_root None) "a1" 1
                (mkFlat "a1" "A1" None (Some "A")) eq_refl) as [_ H].
  destruct (H "A" (mkFlat "A" "A" (Some [leaf "a1" "A1"]) None))
    as [H1 H2]; [reflexivity|discriminate|reflexivity|discriminate|].
  split; [exact H1|exact (H2 (or_introl eq_refl))].
Defined.

(** C8, the statement as written fails: promoting [a1] out of [A], with a
    root [B] after them, gives the roots [A; a1; B]; the promoted node is
    not appended after the entries that already were roots. *)
Lemma promote_not_appended_last :
  ¬ promote_appends_last (flattenWithParent nested_then_root None) "a1"
  ∧ (rebuilt <$> promote (flattenWithParent nested_then_root None) "a1")
    = Some (Some [mkItem "A" "A" (Some []); mkItem "a1" "A1" (Some []);
                  mkItem "B" "B" (Some [])]).
Proof.
  split; [|reflexivity].
  intros H.
  specialize (H [mkFlat "A" "A" (Some [leaf "a1" "A1"]) None;
                 mkFlat "a1" "A1" None None; mkFlat "B" "B" None None]
                (mkFlat "a1" "A1" None None) eq_refl eq_refl).
  vm_compute in H. discriminate H.
Qed.

(** ** Flattening, and the round trip through the rebuild *)

Lemma flatten_leaf_cons i l r p :
  flattenWithParent (mkItem i l None :: r) p
  = mkFlat i l None p :: flattenWithParent r p.
Proof. reflexivity. Qed.

Lemma flatten_node_cons i l cs r p :
  flattenWithParent (mkItem i l (Some cs) :: r) p
  = mkFlat i l (Some cs) p
      :: flattenWithParent cs (Some i) ++ flattenWithParent r p.
Proof. reflexivity. Qed.

Lemma flatten_fids t : ∀ p, fid <$> flattenWithParent t p = ids t.
Proof.
  revert t. apply (forest_ind_list (λ t,
    ∀ p, fid <$> flattenWithParent t p = ids t)).
  - done.
  - intros i l r IH p. rewrite flatten_leaf_cons, ids_leaf_cons.
    cbn [fmap list_fmap fid]. f_equal. apply IH.
  - intros i l cs r IHc IHr p. rewrite flatten_node_cons, ids_node_cons.
    rewrite fmap_cons, fmap_app. cbn [fid]. by rewrite IHc, IHr.
Qed.

Lemma flatten_length t p : length (flattenWithParent t p) = length (ids t).
Proof. by rewrite <- (flatten_fids t p), length_fmap. Qed.

Lemma entries_under_cons q e l :
  entries_under q (e :: l)
  = if decide (parentId e = q) then e :: entries_under q l
    else entries_under q l.
Proof. unfold entries_under. by rewrite filter_cons. Qed.

Lemma entries_under_app q l1 l2 :
  entries_under q (l1 ++ l2) = entries_under q l1 ++ entries_under q l2.
Proof. apply filter_app. Qed.

(** Entries under a reference that names no node of the forest: only the
    top entries can have it. *)
Lemma entries_under_foreign t :
  ∀ p q, (∀ k, q = Some k → k ∉ ids t) →
    entries_under q (flattenWithParent t p)
    = if decide (p = q) then top_entries p t else [].
Proof.
  revert t. apply (forest_ind_list (λ t,
    ∀ p q, (∀ k, q = Some k → k ∉ ids t) →
      entries_under q (flattenWithParent t p)
      = if decide (p = q) then top_entries p t else [])).
  - intros p q _. by case_decide.
  - intros i l r IH p q Hq.
    rewrite flatten_leaf_cons, entries_under_cons. cbn [parentId].
    rewrite IH.
    2:{ intros k Hk Hin. apply (Hq k Hk). rewrite ids_leaf_cons. by right. }
    by case_decide.
  - intros i l cs r IHc IHr p q Hq.
    rewrite flatten_node_cons, entries_under_cons, entries_under_app.
    cbn [parentId].
    rewrite IHc, IHr.
    2:{ intros k Hk Hin. apply (Hq k Hk). rewrite ids_node_cons.
        right. apply elem_of_app. by right. }
    2:{ intros k Hk Hin. apply (Hq k Hk). rewrite ids_node_cons.
        right. apply elem_of_app. by left. }
    rewrite (decide_False (P := Some i = q)).
    2:{ intros <-. apply (Hq i eq_refl). rewrite ids_node_cons. by left. }
    by case_decide.
Qed.

(** Entries under the id of a node of the forest: the top entries of its
    children. *)
Lemma entries_under_node t :
  NoDup (ids t) → ∀ n p, InTree n t → p ≠ Some (item_id n) →
    entries_under (Some (item_id n)) (flattenWithParent t p)
    = top_entries (Some (item_id n)) (children_or_nil n).
Proof.
  revert t. apply (forest_ind_list (λ t,
    NoDup (ids t) → ∀ n p, InTree n t → p ≠ Some (item_id n) →
      entries_under (Some (item_id n)) (flattenWithParent t p)
      = top_entries (Some (item_id n)) (children_or_nil n))).
  - intros _ n p Hx. by apply InTree_nil in Hx.
  - intros i l r IH. rewrite ids_leaf_cons.
    intros [Hi Hr]%NoDup_cons n p Hn Hp.
    rewrite flatten_leaf_cons, entries_under_cons. cbn [parentId].
    rewrite decide_False by done.
    apply InTree_cons in Hn as [->|[Hn|Hn]].
    + rewrite entries_under_foreign by (by intros k [= <-]).
      by rewrite decide_False.
    + by apply InTree_nil in Hn.
    + by apply IH.
  - intros i l cs r IHc IHr. rewrite ids_node_cons.
    intros [Hi [Hcs [Hd Hr]]%NoDup_app]%NoDup_cons n p Hn Hp.
    rewrite elem_of_app in Hi.
    rewrite flatten_node_cons, entries_under_cons, entries_under_app.
    cbn [parentId]. rewrite decide_False by done.
    apply InTree_cons in Hn as [->|[Hn|Hn]].
    + cbn [item_id children_or_nil item_children default from_option id].
      rewrite !entries_under_foreign by (intros k [= <-]; tauto).
      rewrite decide_True, decide_False by done. by rewrite app_nil_r.
    + cbn [children_or_nil item_children default from_option id] in Hn.
      pose proof (InTree_id _ _ Hn) as Hin.
      rewrite IHc by (try done; intros [= ->]; tauto).
      rewrite entries_under_foreign.
      2:{ intros k [= <-] Hx. by destruct (Hd _ Hin). }
      rewrite decide_False by done. by rewrite app_nil_r.
    + pose proof (InTree_id _ _ Hn) as Hin.
      rewrite IHr by done.
      rewrite entries_under_foreign.
      2:{ intros k [= <-] Hx. by destruct (Hd _ Hx). }
      rewrite decide_False; [done|]. intros [= ->]. tauto.
Qed.

Lemma InTree_flatten n t :
  InTree n t → ∀ p, ∃ q,
    mkFlat (item_id n) (item_label n) (item_children n) q
    ∈ flattenWithParent t p.
Proof.
  induction 1 as [t Hin|i l cs t Hin Hsub IH]; intros p.
  - exists p. apply elem_of_flat_map. exists n. split; [done|].
    destruct n as [i l c]. cbn. by left.
  - destruct (IH (Some i)) as [q Hq]. exists q.
    apply elem_of_flat_map. eexists. split; [done|].
    cbn [flattenItem]. by right.
Qed.

Lemma fid_top_entries p t : fid <$> top_entries p t = item_id <$> t.
Proof. unfold top_entries. by rewrite <- list_fmap_compose. Qed.

(** The shell that the rebuild holds for a node of the flattened tree. *)
Lemma rebuild_shell_of_node tree n :
  NoDup (ids tree) → "" ∉ ids tree → InTree n tree →
  og_heap (rebuildTreeFromFlat (flattenWithParent tree None)) !! item_id n
  = Some (mkShell (item_id n) (item_label n) (item_id <$> children_or_nil n)).
Proof.
  intros Hnd Hne Hn.
  assert (Hk : item_id n ≠ "").
  { intros Hx. apply Hne. rewrite <- Hx. by apply InTree_id. }
  destruct (InTree_flatten _ _ Hn None) as [q Hq].
  rewrite rebuild_heap_lookup.
  assert (Hnd' : NoDup (fid <$> flattenWithParent tree None))
    by (by rewrite flatten_fids).
  pose proof (createShells_lookup_elem _ _ Hnd' Hq) as Hc.
  cbn [fid flabel] in Hc. rewrite Hc. cbn. do 2 f_equal.
  rewrite <- fid_top_entries with (p := Some (item_id n)).
  rewrite <- (entries_under_node tree Hnd n None Hn) by done.
  f_equal. apply list_filter_iff. intros e. split; [tauto|].
  intros Hx. split; [|done]. rewrite Hx. by apply truthy_Some.
Qed.

Lemma mapM_readNode fuel m cs :
  (∀ c, c ∈ cs → readNode fuel m (item_id c) = Some (shell_form c)) →
  mapM (readNode fuel m) (item_id <$> cs) = Some (shell_form <$> cs).
Proof.
  induction cs as [|c cs IH]; intros H; [done|].
  cbn [fmap list_fmap mapM]. rewrite H by (by left). cbn.
  fold (item_id <$> cs). rewrite IH by (intros x Hx; apply H; by right).
  done.
Qed.

Lemma forest_size_ids t : forest_size t = length (ids t).
Proof.
  revert t. apply (forest_ind_list (λ t, forest_size t = length (ids t))).
  - done.
  - intros i l r IH. rewrite forest_size_cons, ids_leaf_cons. cbn. by rewrite IH.
  - intros i l cs r IHc IHr.
    rewrite forest_size_cons, ids_node_cons, node_size_eq.
    cbn [children_or_nil item_children default from_option id length].
    rewrite length_app. lia.
Qed.

Lemma readNode_of_node tree :
  NoDup (ids tree) → "" ∉ ids tree →
  ∀ n, InTree n tree → ∀ fuel, node_size n ≤ fuel →
    readNode fuel (og_heap (rebuildTreeFromFlat (flattenWithParent tree None)))
             (item_id n)
    = Some (shell_form n).
Proof.
  intros Hnd Hne.
  apply (MenuItem_nested_ind (λ n, InTree n tree → ∀ fuel, node_size n ≤ fuel →
    readNode fuel (og_heap (rebuildTreeFromFlat (flattenWithParent tree None)))
             (item_id n) = Some (shell_form n))).
  - intros i l Hn [|f] Hf; [cbn in Hf; lia|].
    cbn [readNode]. rewrite (rebuild_shell_of_node tree _ Hnd Hne Hn). done.
  - intros i l cs HF Hn [|f] Hf; [cbn in Hf; lia|].
    cbn [readNode]. rewrite (rebuild_shell_of_node tree _ Hnd Hne Hn).
    cbn [mbind option_bind s_children children_or_nil item_children default
         from_option id].
    rewrite mapM_readNode; [done|].
    intros c Hc. rewrite Forall_forall in HF. apply HF; [done| |].
    + eapply InTree_trans; [|exact Hn]. by constructor.
    + rewrite node_size_eq in Hf.
      cbn [children_or_nil item_children default from_option id] in Hf.
      apply forest_size_elem in Hc. lia.
Qed.

Lemma shell_form_idemp n : shell_form (shell_form n) = shell_form n.
Proof.
  revert n. apply MenuItem_nested_ind; [done|].
  intros i l cs HF. cbn [shell_form]. do 2 f_equal.
  induction HF as [|c cs Hc _ IH]; [done|].
  cbn [map]. by rewrite Hc, IH.
Qed.

Lemma map_shell_form_idemp t :
  map shell_form (map shell_form t) = map shell_form t.
Proof.
  induction t as [|n t IH]; [done|].
  cbn [map]. by rewrite shell_form_idemp, IH.
Qed.

(** X23: the round trip on every tree with distinct ids, none of them the
    empty string: flattening and rebuilding gives the input with every
    children list present, empty where the input had none; ids, labels,
    nesting and sibling order are those of the input. *)
Theorem rebuild_flatten_round_trip (tree : list MenuItem) :
  NoDup (ids tree) → "" ∉ ids tree →
  rebuilt (flattenWithParent tree None) = Some (map shell_form tree)
  ∧ round_trip tree.
Proof.
  intros Hnd Hne.
  assert (Hr : rebuilt (flattenWithParent tree None)
               = Some (map shell_form tree)).
  { unfold rebuilt, readTree. rewrite rebuild_roots.
    rewrite entries_under_foreign by done. rewrite decide_True by done.
    rewrite fid_top_entries. change (map shell_form tree) with (shell_form <$> tree).
    apply mapM_readNode.
    intros c Hc. apply readNode_of_node; [done..|by constructor|].
    apply forest_size_elem in Hc.
    rewrite flatten_length, <- forest_size_ids. lia. }
  split; [done|]. eexists. split; [done|].
  apply map_shell_form_idemp.
Qed.

Lemma rebuild_flatten_round_trip_witness :
  rebuilt (flattenWithParent (scenario "About Us" "Collections" "Spring" "Summer")
                             None)
  = Some (map shell_form (scenario "About Us" "Collections" "Spring" "Summer"))
  ∧ round_trip (scenario "About Us" "Collections" "Spring" "Summer").
Proof.
  apply rebuild_flatten_round_trip.
  - apply (bool_decide_unpack _). vm_compute. exact I.
  - apply (bool_decide_unpack _). vm_compute. exact I.
Defined.

(** C3, the defect: a child of a node whose id is the empty string is lost
    in the round trip.  The second loop of the rebuild takes the parent
    reference [""] for no parent, the last line does not take it for a
    root. *)
Theorem rebuild_flatten_loses_children_of_empty_id :
  NoDup (ids empty_id_parent)
  ∧ rebuilt (flattenWithParent empty_id_parent None)
    = Some [mkItem "" "Root" (Some [])]
  ∧ ¬ round_trip empty_id_parent.
Proof.
  split; [apply (bool_decide_unpack _); vm_compute; exact I|].
  split; [reflexivity|].
  intros (t & Ht & Hs). vm_compute in Ht. injection Ht as <-.
  vm_compute in Hs. discriminate Hs.
Qed.

(** ** Where the reorder puts the dragged entry *)

Lemma spliceOut_lookup {A} (l : list A) d j :
  spliceOut d l !! j = if decide (j < d) then l !! j else l !! S j.
Proof.
  unfold spliceOut. destruct (decide (d ≤ length l)) as [Hd|Hd].
  - case_decide.
    + rewrite lookup_app_l by (rewrite length_take; lia).
      by rewrite lookup_take_lt.
    + rewrite lookup_app_r by (rewrite length_take; lia).
      rewrite length_take, lookup_drop. f_equal. lia.
  - rewrite take_ge, drop_ge, app_nil_r by lia.
    case_decide; [done|].
    rewrite !lookup_ge_None_2; [done|lia..].
Qed.

Lemma spliceIn_adjacent {A B} (f : A → B) (l : list A) j x y :
  l !! j = Some y →
  immediately_before (f x) (f y) (f <$> spliceIn j x l).
Proof.
  intros Hj. unfold spliceIn.
  exists (f <$> take j l), (f <$> drop (S j) l).
  rewrite fmap_app, fmap_cons. do 2 f_equal.
  rewrite (drop_S _ _ _ Hj). done.
Qed.

Lemma spliceIn_adjacent_after {A B} (f : A → B) (l : list A) j x y :
  l !! j = Some y →
  immediately_before (f y) (f x) (f <$> spliceIn (S j) x l).
Proof.
  intros Hj. unfold spliceIn.
  exists (f <$> take j l), (f <$> drop (S j) l).
  rewrite fmap_app, fmap_cons.
  rewrite (take_S_r _ _ _ Hj), fmap_app, <- app_assoc. done.
Qed.

Lemma findIndex_lookup id l k :
  findIndex id l = Some k → ∃ e, l !! k = Some e ∧ fid e = id.
Proof. intros (e & ? & ? & _)%findIndex_Some. eauto. Qed.

(** [above]: the dragged entry lands right before the target. *)
Lemma reorder_above_lands_before flatList dragged targetId d t :
  dragged ≠ "" → dragged ≠ targetId →
  findIndex dragged flatList = Some d → findIndex targetId flatList = Some t →
  ∃ l', reorder flatList (Some dragged) targetId (Some above) = Some l'
        ∧ immediately_before dragged targetId (fid <$> l').
Proof.
  intros Hne Hdt Hd Ht. unfold reorder.
  rewrite (proj2 (truthy_Some dragged)), bool_decide_eq_false_2 by done.
  cbn [andb negb]. rewrite Hd, Ht.
  apply findIndex_lookup in Hd as (e & He & <-).
  apply findIndex_lookup in Ht as (y & Hy & <-).
  rewrite He. cbn [mbind option_bind]. eexists. split; [done|].
  assert (d ≠ t) by (intros ->; congruence).
  destruct (decide (d < t)).
  - rewrite (proj2 (Nat.ltb_lt d t)) by lia.
    apply spliceIn_adjacent. rewrite spliceOut_lookup.
    rewrite decide_False by lia. rewrite <- Hy. f_equal. lia.
  - rewrite (proj2 (Nat.ltb_ge d t)) by lia.
    apply spliceIn_adjacent. rewrite spliceOut_lookup.
    by rewrite decide_True by lia.
Qed.

(** [below], dragged entry after the target: it lands right after the
    target. *)
Lemma reorder_below_backward_lands_after flatList dragged targetId d t :
  dragged ≠ "" → dragged ≠ targetId →
  findIndex dragged flatList = Some d → findIndex targetId flatList = Some t →
  t < d →
  ∃ l', reorder flatList (Some dragged) targetId (Some below) = Some l'
        ∧ immediately_before targetId dragged (fid <$> l').
Proof.
  intros Hne Hdt Hd Ht Hlt. unfold reorder.
  rewrite (proj2 (truthy_Some dragged)), bool_decide_eq_false_2 by done.
  cbn [andb negb]. rewrite Hd, Ht.
  apply findIndex_lookup in Hd as (e & He & <-).
  apply findIndex_lookup in Ht as (y & Hy & <-).
  rewrite He. cbn [mbind option_bind]. eexists. split; [done|].
  rewrite (proj2 (Nat.ltb_ge d t)) by lia.
  rewrite (proj2 (Nat.ltb_ge d (t + 1))) by lia.
  replace (t + 1) with (S t) by lia.
  apply spliceIn_adjacent_after. rewrite spliceOut_lookup.
  by rewrite decide_True by lia.
Qed.

(** [below], dragged entry before the target: it lands right before the
    target, one place short. *)
Lemma reorder_below_forward_lands_before flatList dragged targetId d t :
  dragged ≠ "" → dragged ≠ targetId →
  findIndex dragged flatList = Some d → findIndex targetId flatList = Some t →
  d < t →
  ∃ l', reorder flatList (Some dragged) targetId (Some below) = Some l'
        ∧ immediately_before dragged targetId (fid <$> l').
Proof.
  intros Hne Hdt Hd Ht Hlt. unfold reorder.
  rewrite (proj2 (truthy_Some dragged)), bool_decide_eq_false_2 by done.
  cbn [andb negb]. rewrite Hd, Ht.
  apply findIndex_lookup in Hd as (e & He & <-).
  apply findIndex_lookup in Ht as (y & Hy & <-).
  rewrite He. cbn [mbind option_bind]. eexists. split; [done|].
  rewrite (proj2 (Nat.ltb_lt d t)) by lia.
  rewrite Nat.add_0_r, (proj2 (Nat.ltb_lt d t)) by lia.
  apply spliceIn_adjacent. rewrite spliceOut_lookup.
  rewrite decide_False by lia. rewrite <- Hy. f_equal. lia.
Qed.

(** ** The rebuilt structure of a list with distinct ids is a tree *)

Lemma parent_path_parent_later l q :
  NoDup (fid <$> l) → parent_path l q →
  ∀ e k p1 p2, e ∈ l → parentId e = Some k → q = p1 ++ fid e :: p2 → k ∈ p2.
Proof.
  intros Hnd. induction 1 as [r Hr Hroot|e0 k0 path Hc IH He0 Hp0];
    intros e k p1 p2 He Hp Hq.
  - destruct p1 as [|? [|]]; simplify_eq/=.
    assert (e = r) as -> by eauto using NoDup_fid_inj. congruence.
  - destruct p1 as [|x p1]; simplify_eq/=.
    + assert (e = e0) as -> by eauto using NoDup_fid_inj.
      simplify_eq. by left.
    + by eapply IH.
Qed.

Lemma parent_path_NoDup l q : NoDup (fid <$> l) → parent_path l q → NoDup q.
Proof.
  intros Hnd. induction 1 as [r Hr Hroot|e k path Hc IH He Hp].
  - apply NoDup_singleton.
  - apply NoDup_cons. split; [|done].
    intros (p1 & p2 & Hsplit)%list_elem_of_split.
    pose proof (parent_path_parent_later _ _ Hnd Hc e k p1 p2 He Hp Hsplit) as Hk.
    rewrite Hsplit in IH. destruct p1 as [|x p1]; simplify_eq/=.
    + apply NoDup_cons in IH as [? _]. done.
    + apply NoDup_cons in IH as [Hx _]. apply Hx.
      apply elem_of_app. right. by right.
Qed.

Lemma parent_path_sub l q : parent_path l q → q ⊆ fid <$> l.
Proof.
  induction 1 as [r Hr Hroot|e k path Hc IH He Hp]; intros x.
  - intros ->%list_elem_of_singleton. by apply list_elem_of_fmap_2.
  - intros [->|Hx]%elem_of_cons; [by apply list_elem_of_fmap_2|auto].
Qed.

Lemma parent_path_length l q : NoDup (fid <$> l) → parent_path l q → length q ≤ length l.
Proof.
  intros Hnd Hc. rewrite <- (length_fmap fid l).
  apply submseteq_length, NoDup_submseteq; [by eapply parent_path_NoDup|].
  by apply parent_path_sub.
Qed.

Lemma readNode_total l :
  NoDup (fid <$> l) →
  ∀ fuel k path, parent_path l (k :: path) →
    length l < fuel + length (k :: path) →
    is_Some (readNode fuel (og_heap (rebuildTreeFromFlat l)) k).
Proof.
  intros Hnd. induction fuel as [|f IH]; intros k path Hc Hlen.
  - apply (parent_path_length _ _ Hnd) in Hc. lia.
  - cbn [readNode]. rewrite rebuild_heap_lookup.
    assert (Hk : k ∈ fid <$> l) by (apply (parent_path_sub _ _ Hc); by left).
    apply createShells_is_Some in Hk as [sh Hsh]. rewrite Hsh. cbn.
    match goal with |- context [mapM ?f ?ks] =>
      assert (Hm : is_Some (mapM f ks)) end.
    { apply mapM_is_Some, Forall_forall. intros c Hin.
      apply list_elem_of_fmap in Hin as (e & -> & Hin).
      apply list_elem_of_filter in Hin as [[_ Hp] He].
      apply (IH _ (k :: path)); [by constructor|].
      cbn [length] in *. lia. }
    destruct Hm as [cs ->]. cbn. eauto.
Qed.

(** Reading the rebuilt structure of a list with distinct ids succeeds. *)
Lemma rebuilt_total l : NoDup (fid <$> l) → is_Some (rebuilt l).
Proof.
  intros Hnd. unfold rebuilt, readTree.
  apply mapM_is_Some, Forall_forall. intros r Hr.
  rewrite rebuild_roots in Hr.
  apply list_elem_of_fmap in Hr as (e & -> & Hin).
  apply list_elem_of_filter in Hin as [Hp He].
  apply (readNode_total _ Hnd _ _ []); [by constructor|].
  cbn [length]. lia.
Qed.

(** ** A dangling parent reference *)

(** C1, as amended: the rebuild never signals an error.  When the ids of
    the list are distinct, an entry with a dangling parent reference is
    left out of the result: no reference to its shell is in the root array
    or in any [children] array, and the tree that is returned does not hold
    its id. *)
Theorem rebuild_drops_dangling (flatList : list FlatItem) :
  call_rebuildTreeFromFlat flatList = Returns (rebuildTreeFromFlat flatList)
  ∧ (NoDup (fid <$> flatList) → ∀ e, dangling flatList e →
       (fid e ∉ og_roots (rebuildTreeFromFlat flatList))
       ∧ (∀ k sh, og_heap (rebuildTreeFromFlat flatList) !! k = Some sh →
                  fid e ∉ s_children sh)
       ∧ (∃ t, rebuilt flatList = Some t ∧ fid e ∉ ids t)).
Proof.
  split; [done|]. intros Hnd e (He & p & Hp & Hdangling).
  assert (Hroots : fid e ∉ og_roots (rebuildTreeFromFlat flatList)).
  { rewrite rebuild_roots.
    intros (e' & Heq & Hx)%list_elem_of_fmap.
    apply list_elem_of_filter in Hx as [Hroot He'].
    assert (e = e') as <- by eauto using NoDup_fid_inj. congruence. }
  assert (Hkids : ∀ k sh, og_heap (rebuildTreeFromFlat flatList) !! k = Some sh →
                          fid e ∉ s_children sh).
  { intros k sh Hk. pose proof (rebuild_heap_id _ _ _ Hk) as [_ Hin].
    rewrite rebuild_heap_lookup in Hk.
    destruct (createShells flatList !! k) as [sh0|]; [|done].
    injection Hk as <-. cbn.
    intros (e' & Heq & Hx)%list_elem_of_fmap.
    apply list_elem_of_filter in Hx as [[_ Hpar] He'].
    assert (e = e') as <- by eauto using NoDup_fid_inj. congruence. }
  split; [done|]. split; [done|].
  destruct (rebuilt_total flatList Hnd) as [t Hread]. exists t.
  split; [done|]. intros Hin. unfold rebuilt, readTree in Hread.
  apply mapM_Some in Hread.
  apply elem_of_flat_map in Hin as (n & Hn & Hin).
  apply list_elem_of_lookup in Hn as [j Hj].
  destruct (Forall2_lookup_r _ _ _ _ _ Hread Hj) as (k & Hk & Hnode).
  eapply readNode_ids in Hnode; [| |done|done].
  - subst k. destruct Hroots. by eapply list_elem_of_lookup_2.
  - intros k' sh Hsh. by apply rebuild_heap_id in Hsh as [? _].
Qed.

Lemma rebuild_drops_dangling_witness :
  ("x" ∉ og_roots (rebuildTreeFromFlat orphan_list))
  ∧ (∀ k sh, og_heap (rebuildTreeFromFlat orphan_list) !! k = Some sh →
             "x" ∉ s_children sh)
  ∧ (∃ t, rebuilt orphan_list = Some t ∧ "x" ∉ ids t).
Proof.
  apply (proj2 (rebuild_drops_dangling orphan_list)
           ltac:(apply (bool_decide_unpack _); vm_compute; exact I)
           (mkFlat "x" "X" None (Some "ghost"))).
  split; [unfold orphan_list; rewrite !elem_of_cons; auto|].
  exists "ghost". split; [reflexivity|].
  apply (bool_decide_unpack _). vm_compute. exact I.
Defined.

(** C1, the statement as written fails: on a list with a dangling parent
    reference the rebuild returns, and the tree it returns lacks the
    entry. *)
Lemma rebuild_accepts_dangling :
  ¬ rebuild_rejects_dangling orphan_list
  ∧ rebuilt orphan_list = Some [mkItem "a" "A" (Some [])].
Proof.
  split; [|reflexivity].
  intros H. destruct H as [reason H]; [|discriminate H].
  exists (mkFlat "x" "X" None (Some "ghost")).
  split; [unfold orphan_list; rewrite !elem_of_cons; auto|].
  exists "ghost". split; [reflexivity|].
  apply (bool_decide_unpack _). vm_compute. exact I.
Qed.

(** ** Scenarios and no-op cases of the flat-list operations *)

Lemma findIndex_None id flatList :
  id ∉ fid <$> flatList → findIndex id flatList = None.
Proof.
  intros Hid. unfold findIndex.
  destruct (list_find _ flatList) as [[k e]|] eqn:E; [|done].
  apply list_find_Some in E as (Hk & <- & _).
  destruct Hid. apply list_elem_of_fmap_2. by eapply list_elem_of_lookup_2.
Qed.

(** An id that is not in the list: nothing is reported. *)
Lemma demote_absent flatList id :
  id ∉ fid <$> flatList → demote flatList id = None.
Proof. intros H. unfold demote. by rewrite findIndex_None. Qed.

(** The first entry has no entry before it to adopt it. *)
Lemma demote_first flatList id :
  findIndex id flatList = Some 0 → demote flatList id = None.
Proof. intros H. unfold demote. by rewrite H. Qed.

Lemma promote_absent flatList id :
  id ∉ fid <$> flatList → promote flatList id = None.
Proof.
  intros Hid. unfold promote.
  destruct (list_find _ flatList) as [[k e]|] eqn:E; [|done].
  apply list_find_Some in E as (Hk & <- & _).
  destruct Hid. apply list_elem_of_fmap_2. by eapply list_elem_of_lookup_2.
Qed.

Lemma reorder_same_id flatList id pos :
  reorder flatList (Some id) id pos = None.
Proof.
  unfold reorder. rewrite bool_decide_eq_true_2 by done.
  by rewrite andb_false_r.
Qed.

(** Roots [A; B]: demoting [B] makes it the child of [A]; promoting it
    again gives the roots [A; B] back, in this order. *)
Example demote_then_promote :
  (demote (flattenWithParent [leaf "A" "A"; leaf "B" "B"] None) "B" ≫= rebuilt)
  = Some [mkItem "A" "A" (Some [mkItem "B" "B" (Some [])])]
  ∧ (promote (flattenWithParent
                [mkItem "A" "A" (Some [mkItem "B" "B" (Some [])])] None) "B"
       ≫= rebuilt)
    = Some [mkItem "A" "A" (Some []); mkItem "B" "B" (Some [])].
Proof. split; reflexivity. Qed.

(** The drop handler on three roots: [a] dropped on the lower half of [b]
    reports the tree in the order it had. *)
Example handleDrop_below_forward :
  (readTree 4 <$> handleDrop [leaf "a" "A"; leaf "b" "B"; leaf "c" "C"]
                    (Some "a") (Some below) "b")
  = Some (Some [mkItem "a" "A" (Some []); mkItem "b" "B" (Some []);
                mkItem "c" "C" (Some [])]).
Proof. reflexivity. Qed.

(** ** More on removal *)

Lemma removeStep_fst id item st :
  (removeStep id item st).1
  = match (removeStep id item (None, [])).1 with
    | Some x => Some x
    | None => st.1
    end.
Proof.
  destruct item as [i l c]. rewrite !removeStep_eq.
  case_decide; [done|].
  destruct c as [[|x r]|]; [done| |done].
  cbv zeta. cbn [fst]. by destruct (removeItemFromTree (x :: r) id).1.
Qed.

Lemma removeItemFromTree_fst_cons x r id :
  (removeItemFromTree (x :: r) id).1
  = match (removeItemFromTree r id).1 with
    | Some y => Some y
    | None => (removeStep id x (None, [])).1
    end.
Proof.
  unfold removeItemFromTree. cbn [foldl].
  generalize (removeStep id x (None, [])). intros st.
  assert (H : ∀ st, (foldl (λ st item, removeStep id item st) st r).1
            = match (foldl (λ st item, removeStep id item st) (None, []) r).1 with
              | Some y => Some y
              | None => st.1
              end).
  { clear st. induction r as [|y r IH] using rev_ind; intros st; [done|].
    rewrite !foldl_snoc, removeStep_fst, (removeStep_fst _ _ (foldl _ _ _)).
    destruct (removeStep id y (None, [])).1; [done|]. apply IH. }
  apply H.
Qed.

Lemma removeItemFromTree_nil id : removeItemFromTree [] id = (None, []).
Proof. reflexivity. Qed.

Lemma removeItemFromTree_absent_both tree id :
  id ∉ ids tree →
  (removeItemFromTree tree id).1 = None ∧ (removeItemFromTree tree id).2 = tree.
Proof.
  revert tree. apply (forest_ind_list (λ tree, id ∉ ids tree →
    (removeItemFromTree tree id).1 = None
    ∧ (removeItemFromTree tree id).2 = tree)).
  - done.
  - intros i l r IH. rewrite ids_leaf_cons, not_elem_of_cons. intros [Hi Hr].
    destruct (IH Hr) as [IH1 IH2].
    rewrite removeItemFromTree_fst_cons, removeItemFromTree_snd_cons, IH1, IH2.
    rewrite removeStep_eq, decide_False by done. done.
  - intros i l cs r IHc IHr.
    rewrite ids_node_cons, not_elem_of_cons, not_elem_of_app.
    intros [Hi [Hc Hr]].
    destruct (IHc Hc) as [IHc1 IHc2]. destruct (IHr Hr) as [IHr1 IHr2].
    rewrite removeItemFromTree_fst_cons, removeItemFromTree_snd_cons, IHr1, IHr2.
    rewrite removeStep_eq, decide_False by done.
    destruct cs as [|y cs]; [done|]. cbv zeta. rewrite IHc1, IHc2. done.
Qed.

Lemma drop_empty_ids_node n : node_ids (drop_empty n) = node_ids n.
Proof.
  revert n. apply MenuItem_nested_ind; [done|].
  intros i l cs HF. destruct cs as [|y cs]; [done|].
  cbn [drop_empty node_ids]. f_equal.
  induction HF as [|c cs' Hc _ IH]; [done|].
  cbn [map flat_map]. by rewrite Hc, IH.
Qed.

Lemma drop_empty_ids t : ids (map drop_empty t) = ids t.
Proof.
  induction t as [|n t IH]; [done|].
  cbn [map]. by rewrite !ids_cons, drop_empty_ids_node, IH.
Qed.

Lemma removeItem_agree tree id :
  map drop_empty (removeItemFromTree tree id).2
  = map drop_empty (removeItemById tree id).
Proof.
  revert tree. apply (forest_ind_list (λ tree,
    map drop_empty (removeItemFromTree tree id).2
    = map drop_empty (removeItemById tree id))).
  - done.
  - intros i l r IH.
    rewrite removeItemFromTree_snd_cons, removeItemById_cons, removeStep_eq.
    cbn [item_id]. case_decide.
    + rewrite decide_False by tauto. done.
    + rewrite decide_True by done. cbn [snd app map pruneNode]. by rewrite IH.
  - intros i l cs r IHc IHr.
    rewrite removeItemFromTree_snd_cons, removeItemById_cons, removeStep_eq.
    cbn [item_id]. case_decide.
    + rewrite decide_False by tauto. done.
    + rewrite decide_True by done. rewrite pruneNode_Some.
      destruct cs as [|y cs]; [cbn; by rewrite IHr|].
      cbv zeta. cbn [snd app map]. rewrite IHr. f_equal.
      cbn [drop_empty]. f_equal.
      destruct (removeItemFromTree (y :: cs) id).2 as [|a new] eqn:E1;
        destruct (removeItemById (y :: cs) id) as [|b pr] eqn:E2;
        cbn [nonempty_or_absent]; try done.
      by rewrite IHc.
Qed.

Lemma removeItemFromTree_fst_present tree id n :
  NoDup (ids tree) → InTree n tree → item_id n = id →
  (removeItemFromTree tree id).1 = Some n.
Proof.
  intros Hnd Hn Hid. revert tree Hnd Hn.
  apply (forest_ind_list (λ tree, NoDup (ids tree) → InTree n tree →
    (removeItemFromTree tree id).1 = Some n)).
  - intros _ Hx. by apply InTree_nil in Hx.
  - intros i l r IH. rewrite ids_leaf_cons.
    intros [Hi Hr]%NoDup_cons Hn. rewrite removeItemFromTree_fst_cons.
    apply InTree_cons in Hn as [->|[Hn|Hn]].
    + cbn [item_id] in Hid. subst i.
      rewrite (proj1 (removeItemFromTree_absent_both r id Hi)).
      by rewrite removeStep_eq, decide_True.
    + by apply InTree_nil in Hn.
    + by rewrite IH.
  - intros i l cs r IHc IHr. rewrite ids_node_cons.
    intros [Hi [Hc [Hd Hr]]%NoDup_app]%NoDup_cons Hn.
    rewrite elem_of_app in Hi. rewrite removeItemFromTree_fst_cons.
    apply InTree_cons in Hn as [->|[Hn|Hn]].
    + cbn [item_id] in Hid. subst i.
      assert (Hr' : id ∉ ids r) by tauto.
      rewrite (proj1 (removeItemFromTree_absent_both r id Hr')).
      by rewrite removeStep_eq, decide_True.
    + cbn in Hn. pose proof (InTree_id _ _ Hn) as Hin. rewrite Hid in Hin.
      assert (Hr' : id ∉ ids r) by (intros Hx; by destruct (Hd _ Hin)).
      rewrite (proj1 (removeItemFromTree_absent_both r id Hr')).
      rewrite removeStep_eq, decide_False by (intros ->; tauto).
      destruct cs as [|y cs]; [by apply InTree_nil in Hn|].
      cbv zeta. cbn [fst]. by rewrite IHc.
    + by rewrite IHr.
Qed.

Lemma removeItemFromTree_ids tree id :
  ids (removeItemFromTree tree id).2 = ids (removeItemById tree id).
Proof.
  rewrite <- (drop_empty_ids (removeItemFromTree tree id).2).
  by rewrite removeItem_agree, drop_empty_ids.
Qed.

(** X1: removing an id that is not in the tree finds nothing and gives the
    tree back as it was. *)
Theorem removeItemFromTree_missing_id (tree : list MenuItem) (id : string) :
  id ∉ ids tree → removeItemFromTree tree id = (None, tree).
Proof.
  intros H. destruct (removeItemFromTree_absent_both tree id H) as [H1 H2].
  destruct (removeItemFromTree tree id). cbn in *. by subst.
Qed.

Lemma removeItemFromTree_missing_id_witness :
  removeItemFromTree nested_then_root "zz" = (None, nested_then_root).
Proof.
  apply removeItemFromTree_missing_id.
  apply (bool_decide_unpack _). vm_compute. exact I.
Defined.

(** X2: on a tree with distinct ids, removing the id of a node returns that
    node with its subtree as it was, and a tree whose ids are those of the
    input, in the same order, without the ids of the removed subtree. *)
Theorem removeItemFromTree_detaches
    (tree : list MenuItem) (id : string) (n : MenuItem) :
  NoDup (ids tree) → InTree n tree → item_id n = id →
  (removeItemFromTree tree id).1 = Some n
  ∧ ids (removeItemFromTree tree id).2
    = filter (λ x, x ∉ node_ids n) (ids tree).
Proof.
  intros Hnd Hn Hid. split; [by apply removeItemFromTree_fst_present|].
  rewrite removeItemFromTree_ids. by apply removeItemById_ids.
Qed.

Lemma removeItemFromTree_detaches_witness :
  (removeItemFromTree nested_then_root "A").1
  = Some (mkItem "A" "A" (Some [leaf "a1" "A1"]))
  ∧ ids (removeItemFromTree nested_then_root "A").2
    = filter (λ x, x ∉ node_ids (mkItem "A" "A" (Some [leaf "a1" "A1"])))
             (ids nested_then_root).
Proof.
  apply removeItemFromTree_detaches.
  - apply (bool_decide_unpack _). vm_compute. exact I.
  - apply InTree_cons. by left.
  - reflexivity.
Defined.

(** X3: the two removals prune the same nodes.  For every tree and id, the
    tree left by [removeItemFromTree] and the tree returned by
    [removeItemById] are equal once empty children lists are made absent;
    they hold the same ids in the same order, and the removed id is not
    among them. *)
Theorem removals_agree (tree : list MenuItem) (id : string) :
  map drop_empty (removeItemFromTree tree id).2
  = map drop_empty (removeItemById tree id)
  ∧ ids (removeItemFromTree tree id).2 = ids (removeItemById tree id)
  ∧ id ∉ ids (removeItemFromTree tree id).2.
Proof.
  split; [apply removeItem_agree|]. split; [apply removeItemFromTree_ids|].
  rewrite removeItemFromTree_ids. apply removeItemById_no_id.
Qed.

(** ** More on insertion *)

Lemma perm_move {A} (a b c : list A) : (a ++ c) ++ b ≡ₚ (a ++ b) ++ c.
Proof. rewrite <- !app_assoc. f_equiv. apply Permutation_app_comm. Qed.

Lemma ids_singleton n : ids [n] = node_ids n.
Proof. unfold ids. cbn. apply app_nil_r. Qed.

Lemma insertInside_ids item targetId t :
  NoDup (ids t) → targetId ∈ ids t →
  ids (map (insertInside item targetId) t) ≡ₚ ids t ++ node_ids item.
Proof.
  revert t. apply (forest_ind_list (λ t,
    NoDup (ids t) → targetId ∈ ids t →
    ids (map (insertInside item targetId) t) ≡ₚ ids t ++ node_ids item)).
  - intros _ Hx. by apply not_elem_of_nil in Hx.
  - intros i l r IH. rewrite ids_leaf_cons.
    intros [Hi Hr]%NoDup_cons Ht. cbn [map insertInside].
    case_decide as Hit.
    + subst i. rewrite insertInside_absent by done.
      cbn [default from_option app]. rewrite ids_node_cons, ids_singleton.
      cbn [app]. f_equiv. apply Permutation_app_comm.
    + apply elem_of_cons in Ht as [->|Ht]; [done|].
      rewrite ids_leaf_cons. cbn [app]. f_equiv. by apply IH.
  - intros i l cs r IHc IHr. rewrite ids_node_cons.
    intros [Hi [Hcs [Hd Hr]]%NoDup_app]%NoDup_cons Ht.
    rewrite elem_of_app in Hi. cbn [map insertInside].
    case_decide as Hit.
    + subst i. rewrite insertInside_absent by tauto.
      cbn [default from_option]. unfold Datatypes.id.
      rewrite ids_node_cons, ids_app, ids_singleton.
      cbn [app]. f_equiv. apply perm_move.
    + rewrite ids_node_cons. cbn [app]. f_equiv.
      apply elem_of_cons in Ht as [->|[Ht|Ht]%elem_of_app]; [done| |].
      * rewrite IHc by done.
        rewrite (insertInside_absent _ _ r) by (intros Hx; by destruct (Hd _ Ht)).
        apply perm_move.
      * rewrite (insertInside_absent _ _ cs) by (intros Hx; by destruct (Hd _ Hx)).
        rewrite IHr by done. by rewrite app_assoc.
Qed.

Lemma insertBeside_ids item targetId pos t :
  NoDup (ids t) → targetId ∈ ids t →
  ids (flat_map (insertBeside item targetId pos) t) ≡ₚ ids t ++ node_ids item.
Proof.
  revert t. apply (forest_ind_list (λ t,
    NoDup (ids t) → targetId ∈ ids t →
    ids (flat_map (insertBeside item targetId pos) t)
    ≡ₚ ids t ++ node_ids item)).
  - intros _ Hx. by apply not_elem_of_nil in Hx.
  - intros i l r IH. rewrite ids_leaf_cons.
    intros [Hi Hr]%NoDup_cons Ht. cbn [flat_map insertBeside].
    case_decide as Hit.
    + subst i. rewrite insertBeside_absent by done.
      destruct pos; cbn [app]; rewrite ?ids_cons, ?ids_leaf_cons.
      * rewrite (Permutation_app_comm (node_ids item)). done.
      * cbn [node_ids app]. f_equiv. apply Permutation_app_comm.
      * cbn [node_ids app]. f_equiv. apply Permutation_app_comm.
    + apply elem_of_cons in Ht as [->|Ht]; [done|].
      cbn [app]. rewrite ids_leaf_cons. cbn [app]. f_equiv. by apply IH.
  - intros i l cs r IHc IHr. rewrite ids_node_cons.
    intros [Hi [Hcs [Hd Hr]]%NoDup_app]%NoDup_cons Ht.
    rewrite elem_of_app in Hi. cbn [flat_map insertBeside].
    case_decide as Hit.
    + subst i. rewrite insertBeside_absent by tauto.
      destruct pos; cbn [app]; rewrite ?ids_cons, ?ids_node_cons.
      * rewrite (Permutation_app_comm (node_ids item)). reflexivity.
      * cbn [node_ids app]. f_equiv. rewrite <- app_assoc.
        rewrite (Permutation_app_comm (node_ids item)). reflexivity.
      * cbn [node_ids app]. f_equiv. rewrite <- app_assoc.
        rewrite (Permutation_app_comm (node_ids item)). reflexivity.
    + apply elem_of_cons in Ht as [->|[Ht|Ht]%elem_of_app]; [done| |].
      * destruct cs as [|y cs]; [by apply not_elem_of_nil in Ht|].
        cbn [app]. rewrite ids_node_cons. cbn [app]. f_equiv.
        rewrite IHc by done.
        rewrite (insertBeside_absent _ _ _ r) by (intros Hx; by destruct (Hd _ Ht)).
        apply perm_move.
      * assert (Hcs' : flat_map (insertBeside item targetId pos)
                        [mkItem i l (Some cs)] = [mkItem i l (Some cs)]).
        { apply insertBeside_absent. rewrite ids_node_cons.
          rewrite not_elem_of_cons, not_elem_of_app.
          split; [done|]. split; [|by intros ?%not_elem_of_nil].
          intros Hx. by destruct (Hd _ Hx). }
        cbn [flat_map insertBeside] in Hcs'. rewrite decide_False in Hcs' by done.
        rewrite app_nil_r in Hcs'. rewrite Hcs'.
        cbn [app]. rewrite ids_node_cons. cbn [app]. f_equiv.
        rewrite IHr by done. by rewrite app_assoc.
Qed.

Lemma insertItemInTree_ids_perm tree item targetId position :
  NoDup (ids tree) → targetId ∈ ids tree →
  ids (insertItemInTree tree item targetId position)
  ≡ₚ ids tree ++ node_ids item.
Proof.
  intros Hnd Ht. destruct position; cbn [insertItemInTree];
    auto using insertInside_ids, insertBeside_ids.
Qed.

(** X4: inserting at a target that is in a tree with distinct ids adds the
    ids of the inserted node, and nothing else, to the ids of the tree, for
    each of the three relations. *)
Theorem insertItemInTree_adds_ids (tree : list MenuItem) (item : MenuItem)
    (targetId : string) (position : Position) :
  NoDup (ids tree) → targetId ∈ ids tree →
  ids (insertItemInTree tree item targetId position)
  ≡ₚ ids tree ++ node_ids item.
Proof.
  intros Hnd Ht. destruct position; cbn [insertItemInTree].
  - by apply insertBeside_ids.
  - by apply insertBeside_ids.
  - by apply insertInside_ids.
Qed.

Lemma insertItemInTree_adds_ids_witness :
  ids (insertItemInTree nested_then_root (leaf "x" "X") "a1" before)
  ≡ₚ ids nested_then_root ++ node_ids (leaf "x" "X").
Proof.
  apply insertItemInTree_adds_ids.
  - apply (bool_decide_unpack _). vm_compute. exact I.
  - apply (bool_decide_unpack _). vm_compute. exact I.
Defined.

Lemma insertBeside_target item tgt pos :
  insertBeside item (item_id tgt) pos tgt
  = match pos with before => [item; tgt] | _ => [tgt; item] end.
Proof. destruct tgt as [i l c]. cbn. by rewrite decide_True. Qed.

Lemma insertBeside_top item pos l1 tgt l2 :
  NoDup (ids (l1 ++ tgt :: l2)) →
  flat_map (insertBeside item (item_id tgt) pos) (l1 ++ tgt :: l2)
  = l1 ++ match pos with before => [item; tgt] | _ => [tgt; item] end ++ l2.
Proof.
  rewrite ids_app, ids_cons, node_ids_eq.
  intros [H1 [Hd [Ht [Hd2 H2]]%NoDup_app]]%NoDup_app.
  rewrite flat_map_app. cbn [flat_map].
  rewrite insertBeside_target.
  rewrite !insertBeside_absent; [done| |].
  - intros Hx. apply (Hd2 (item_id tgt)); [by left|done].
  - intros Hx. apply (Hd _ Hx). apply elem_of_app. left. by left.
Qed.

Lemma SiblingList_ids l t : SiblingList l t → ids l ⊆ ids t.
Proof.
  induction 1 as [|i lb cs t Hin Hsub IH]; [done|].
  intros x Hx. apply elem_of_flat_map. eexists. split; [done|].
  cbn [node_ids]. right. by apply IH.
Qed.

Lemma SiblingList_NoDup l t : SiblingList l t → NoDup (ids t) → NoDup (ids l).
Proof.
  induction 1 as [|i lb cs t Hin Hsub IH]; [done|].
  intros Hnd. apply IH.
  apply (NoDup_flat_map_elem node_ids _ _ Hin) in Hnd.
  cbn [node_ids] in Hnd. by apply NoDup_cons in Hnd as [_ ?].
Qed.

Lemma SiblingList_insertBeside item pos l1 tgt l2 t :
  NoDup (ids t) → SiblingList (l1 ++ tgt :: l2) t →
  SiblingList
    (l1 ++ match pos with before => [item; tgt] | _ => [tgt; item] end ++ l2)
    (flat_map (insertBeside item (item_id tgt) pos) t).
Proof.
  intros Hnd Hs. remember (l1 ++ tgt :: l2) as l eqn:Hl.
  induction Hs as [|i lb cs t Hin Hsub IH].
  - subst l. rewrite insertBeside_top by done. constructor.
  - assert (Hp : NoDup (i :: ids cs)).
    { by apply (NoDup_flat_map_elem node_ids _ _ Hin) in Hnd. }
    apply NoDup_cons in Hp as [Hi Hcs].
    assert (Ht : item_id tgt ∈ ids cs).
    { apply (SiblingList_ids _ _ Hsub). subst l.
      rewrite ids_app, ids_cons, node_ids_eq.
      apply elem_of_app. right. by left. }
    econstructor 2; [|by apply IH].
    apply elem_of_flat_map. eexists. split; [exact Hin|].
    cbn [insertBeside]. rewrite decide_False by (intros ->; done).
    destruct cs as [|y cs]; [by apply not_elem_of_nil in Ht|].
    by left.
Qed.

Lemma InTree_SiblingList n t :
  InTree n t → ∃ l1 l2, SiblingList (l1 ++ n :: l2) t.
Proof.
  induction 1 as [t Hin|i l cs t Hin Hsub IH].
  - apply list_elem_of_split in Hin as (l1 & l2 & ->).
    exists l1, l2. constructor.
  - destruct IH as (l1 & l2 & IH). exists l1, l2. by econstructor 2.
Qed.

Lemma InTree_insertInside item tgt t :
  NoDup (ids t) → InTree tgt t →
  InTree (mkItem (item_id tgt) (item_label tgt)
            (Some (children_or_nil tgt ++ [item])))
         (map (insertInside item (item_id tgt)) t).
Proof.
  intros Hnd Hn. induction Hn as [t Hin|i l cs t Hin Hsub IH].
  - constructor. apply list_elem_of_fmap. exists tgt. split; [|done].
    destruct tgt as [i l c]. cbn. by rewrite decide_True.
  - assert (Hp : NoDup (i :: ids cs)).
    { by apply (NoDup_flat_map_elem node_ids _ _ Hin) in Hnd. }
    apply NoDup_cons in Hp as [Hi Hcs].
    econstructor 2; [|by apply IH].
    apply list_elem_of_fmap. eexists. split; [|exact Hin].
    cbn [insertInside]. rewrite decide_False; [done|].
    intros ->. by apply Hi, InTree_id.
Qed.

(** X5: where the inserted node lands.  In a tree with distinct ids, with
    the target among the siblings [l1 ++ target :: l2], [before] gives the
    siblings [l1 ++ node :: target :: l2] and [after] gives
    [l1 ++ target :: node :: l2], the other siblings and the target as they
    were; [inside] gives the target the children it had followed by the
    node. *)
Theorem insertItemInTree_places (tree : list MenuItem) (item tgt : MenuItem) :
  NoDup (ids tree) → InTree tgt tree →
  (∃ l1 l2,
     SiblingList (l1 ++ tgt :: l2) tree
     ∧ SiblingList (l1 ++ item :: tgt :: l2)
         (insertItemInTree tree item (item_id tgt) before)
     ∧ SiblingList (l1 ++ tgt :: item :: l2)
         (insertItemInTree tree item (item_id tgt) after))
  ∧ InTree (mkItem (item_id tgt) (item_label tgt)
              (Some (children_or_nil tgt ++ [item])))
           (insertItemInTree tree item (item_id tgt) inside).
Proof.
  intros Hnd Hn. split.
  - destruct (InTree_SiblingList _ _ Hn) as (l1 & l2 & Hs).
    exists l1, l2. split; [done|]. split.
    + apply (SiblingList_insertBeside item before l1 tgt l2 tree Hnd Hs).
    + apply (SiblingList_insertBeside item after l1 tgt l2 tree Hnd Hs).
  - by apply InTree_insertInside.
Qed.

Lemma insertItemInTree_places_witness :
  (∃ l1 l2,
     SiblingList (l1 ++ leaf "a1" "A1" :: l2) nested_then_root
     ∧ SiblingList (l1 ++ leaf "x" "X" :: leaf "a1" "A1" :: l2)
         (insertItemInTree nested_then_root (leaf "x" "X") "a1" before)
     ∧ SiblingList (l1 ++ leaf "a1" "A1" :: leaf "x" "X" :: l2)
         (insertItemInTree nested_then_root (leaf "x" "X") "a1" after))
  ∧ InTree (mkItem "a1" "A1" (Some ([] ++ [leaf "x" "X"])))
           (insertItemInTree nested_then_root (leaf "x" "X") "a1" inside).
Proof.
  apply (insertItemInTree_places nested_then_root (leaf "x" "X")
           (leaf "a1" "A1")).
  - apply (bool_decide_unpack _). vm_compute. exact I.
  - apply InTree_cons. right; left. apply InTree_cons. by left.
Defined.

(** ** The drop handler of the drag-and-drop variant *)

Lemma filter_complement_perm (L N : list string) :
  NoDup L → NoDup N → N ⊆ L →
  filter (λ x, x ∉ N) L ++ N ≡ₚ L.
Proof.
  intros HL HN Hsub.
  rewrite <- (filter_app_complement (λ x, x ∉ N) L) at 2.
  f_equiv. apply NoDup_Permutation; [done|by apply NoDup_filter|].
  intros x. rewrite list_elem_of_filter. split.
  - intros Hx. split; [tauto|by apply Hsub].
  - intros [Hx _]. by destruct (decide (x ∈ N)).
Qed.

Lemma removeItemFromTree_present tree id n :
  NoDup (ids tree) → InTree n tree → item_id n = id →
  (removeItemFromTree tree id).1 = Some n
  ∧ ids (removeItemFromTree tree id).2
    = filter (λ x, x ∉ node_ids n) (ids tree).
Proof.
  intros Hnd Hn Hid. split; [by apply removeItemFromTree_fst_present|].
  rewrite removeItemFromTree_ids. by apply removeItemById_ids.
Qed.

Lemma isDescendant_false_outside items a c :
  ¬ strictly_inside items a c → isDescendant items a c = false.
Proof.
  intros H. apply not_true_is_false. intros Hx. apply H.
  by apply findInChildren_sound.
Qed.

(** X6: a drop that passes the guards loses and duplicates nothing.  On a
    tree with distinct ids, for a dragged id and a target id that are both
    in the tree, differ, and with the target not inside the subtree of the
    dragged node, the handler reports a tree with the same ids as the
    input, whatever the drop position. *)
Theorem handleDrop_conserves_ids
    (items : list MenuItem) (dragged : string) (zone : DropZone) :
  NoDup (ids items) → dragged ≠ "" →
  dragged ∈ ids items → dz_id zone ∈ ids items → dragged ≠ dz_id zone →
  ¬ strictly_inside items dragged (dz_id zone) →
  ∃ newTree,
    Surgery.handleDrop items (Some dragged) (Some zone) = Some newTree
    ∧ ids newTree ≡ₚ ids items
    ∧ NoDup (ids newTree).
Proof.
  intros Hnd Hne Hd Ht Hdt Hout. unfold Surgery.handleDrop.
  rewrite !bool_decide_eq_false_2 by done. cbn [orb].
  rewrite isDescendant_false_outside by done.
  destruct (ids_InTree _ _ Hd) as (n & Hn & Hid).
  destruct (removeItemFromTree_present items dragged n Hnd Hn Hid)
    as [H1 H2].
  destruct (removeItemFromTree items dragged) as [removed rest].
  cbn [fst snd] in H1, H2. subst removed.
  eexists. split; [done|].
  assert (Hperm : ids (insertItemInTree rest n (dz_id zone) (dz_position zone))
                  ≡ₚ ids items).
  { rewrite insertItemInTree_ids_perm.
    - rewrite H2. apply filter_complement_perm; [done| |].
      + by eapply InTree_NoDup.
      + by apply InTree_ids.
    - rewrite H2. by apply NoDup_filter.
    - rewrite H2. apply list_elem_of_filter. split; [|done].
      rewrite node_ids_eq, Hid. intros [?|Hx]%elem_of_cons; [done|].
      apply Hout. by exists n. }
  split; [done|]. by rewrite Hperm.
Qed.

Lemma handleDrop_conserves_ids_witness :
  ∃ newTree,
    Surgery.handleDrop nested_then_root (Some "B")
      (Some (mkDropZone "a1" inside 1)) = Some newTree
    ∧ ids newTree ≡ₚ ids nested_then_root
    ∧ NoDup (ids newTree).
Proof.
  apply handleDrop_conserves_ids.
  - apply (bool_decide_unpack _). vm_compute. exact I.
  - discriminate.
  - apply (bool_decide_unpack _). vm_compute. exact I.
  - apply (bool_decide_unpack _). vm_compute. exact I.
  - discriminate.
  - intros Hx. apply findInChildren_complete in Hx; [discriminate Hx|].
    apply (bool_decide_unpack _). vm_compute. exact I.
Defined.

(** X7: the vetoes of the drop handler.  Nothing is reported when the
    target is the dragged node itself, and, on a tree with distinct ids,
    when the target lies inside the subtree of the dragged node or the
    dragged id is not in the tree. *)
Theorem handleDrop_vetoes
    (items : list MenuItem) (dragged : string) (zone : DropZone) :
  (dragged = dz_id zone →
     Surgery.handleDrop items (Some dragged) (Some zone) = None)
  ∧ (NoDup (ids items) → strictly_inside items dragged (dz_id zone) →
     Surgery.handleDrop items (Some dragged) (Some zone) = None)
  ∧ (dragged ∉ ids items →
     Surgery.handleDrop items (Some dragged) (Some zone) = None).
Proof.
  unfold Surgery.handleDrop. split; [|split].
  - intros ->. rewrite (bool_decide_eq_true_2 (dz_id zone = dz_id zone)) by done.
    by rewrite orb_true_r.
  - intros Hnd Hin.
    destruct (bool_decide (dragged = "") || bool_decide (dragged = dz_id zone));
      [done|].
    unfold isDescendant. by rewrite findInChildren_complete.
  - intros Hd.
    destruct (bool_decide (dragged = "") || bool_decide (dragged = dz_id zone));
      [done|].
    destruct (isDescendant items dragged (dz_id zone)); [done|].
    destruct (removeItemFromTree_absent_both items dragged Hd) as [H1 _].
    destruct (removeItemFromTree items dragged) as [removed rest].
    cbn in H1. by subst.
Qed.

Lemma handleDrop_vetoes_witness :
  Surgery.handleDrop chain (Some "A") (Some (mkDropZone "C" before 2)) = None.
Proof.
  apply (proj1 (proj2 (handleDrop_vetoes chain "A" (mkDropZone "C" before 2)))).
  - apply (bool_decide_unpack _). vm_compute. exact I.
  - exists (mkItem "A" "A" (Some [mkItem "B" "B" (Some [leaf "C" "C"])])).
    split; [apply InTree_cons; by left|]. split; [reflexivity|].
    apply (bool_decide_unpack _). vm_compute. exact I.
Defined.



(** ** More on the page's helpers *)

Lemma removeItemById_comm_forest a b t :
  removeItemById (removeItemById t a) b = removeItemById (removeItemById t b) a.
Proof.
  revert t. apply (forest_ind_list (λ t,
    removeItemById (removeItemById t a) b
    = removeItemById (removeItemById t b) a)).
  - done.
  - intros i l r IH. rewrite !(removeItemById_cons (mkItem i l None)).
    cbn [item_id].
    destruct (decide (i ≠ a)), (decide (i ≠ b));
      rewrite ?removeItemById_cons; cbn [item_id pruneNode];
      rewrite ?decide_True, ?decide_False by done; by rewrite ?IH.
  - intros i l cs r IHc IHr.
    rewrite !(removeItemById_cons (mkItem i l (Some cs))).
    cbn [item_id].
    destruct (decide (i ≠ a)), (decide (i ≠ b));
      rewrite ?pruneNode_Some, ?removeItemById_cons; cbn [item_id];
      rewrite ?decide_True, ?decide_False by done;
      rewrite ?pruneNode_Some; by rewrite ?IHc, ?IHr.
Qed.

(** X9: removing two ids from the page's tree gives the same tree in either
    order, and removing an id a second time changes nothing. *)
Theorem removeItemById_commutes_idempotent
    (items : list MenuItem) (a b : string) :
  removeItemById (removeItemById items a) b
  = removeItemById (removeItemById items b) a
  ∧ removeItemById (removeItemById items a) a = removeItemById items a.
Proof.
  split; [apply removeItemById_comm_forest|].
  apply removeItemById_absent, removeItemById_no_id.
Qed.

(** X10: the remove handler returns the tree as it was, explicit empty
    children lists included, exactly when the id is not in the tree. *)
Theorem removeItemById_missing_id (items : list MenuItem) (id : string) :
  handleRemoveItem items id = items ↔ id ∉ ids items.
Proof.
  unfold handleRemoveItem. split.
  - intros Heq Hin. apply (removeItemById_no_id items id). by rewrite Heq.
  - apply removeItemById_absent.
Qed.

(** X11: the expand toggle.  Toggling an id changes the membership of that
    id and of no other, and toggling it twice gives the set back. *)
Theorem handleToggleExpand_involutive (prev : gset string) (id : string) :
  (id ∈ handleToggleExpand prev id ↔ id ∉ prev)
  ∧ (∀ other, other ≠ id →
       (other ∈ handleToggleExpand prev id ↔ other ∈ prev))
  ∧ handleToggleExpand (handleToggleExpand prev id) id = prev.
Proof.
  assert (Hmem : ∀ (s : gset string) x, x ∈ handleToggleExpand s id
                      ↔ (x ≠ id ∧ x ∈ s) ∨ (x = id ∧ id ∉ s)).
  { intros s x. unfold handleToggleExpand. case_bool_decide as Hin.
    - rewrite elem_of_difference, elem_of_singleton.
      split; [intros [H1 H2]; by left|].
      intros [[H1 H2]|[H1 H2]]; [done|tauto].
    - rewrite elem_of_union, elem_of_singleton.
      split.
      + intros [H1|H1]; [|by right]. left. split; [|done]. by intros ->.
      + intros [[H1 H2]|[H1 H2]]; [by left|by right]. }
  split; [|split].
  - rewrite Hmem. tauto.
  - intros other Hne. rewrite Hmem. tauto.
  - apply set_eq. intros x. rewrite !Hmem.
    destruct (decide (x = id)) as [->|]; [|tauto].
    destruct (decide (id ∈ prev)); tauto.
Qed.

(** ** More on flattening and rebuilding *)

Lemma flatten_parent_earlier t :
  ∀ q j e, flattenWithParent t q !! j = Some e →
    parentId e = q
    ∨ ∃ i pe, i < j ∧ flattenWithParent t q !! i = Some pe
              ∧ parentId e = Some (fid pe).
Proof.
  revert t. apply (forest_ind_list (λ t,
    ∀ q j e, flattenWithParent t q !! j = Some e →
      parentId e = q
      ∨ ∃ i pe, i < j ∧ flattenWithParent t q !! i = Some pe
                ∧ parentId e = Some (fid pe))).
  - intros q j e H. by destruct j.
  - intros i l r IH q [|j] e; rewrite flatten_leaf_cons; cbn.
    + intros [= <-]. by left.
    + intros H. destruct (IH _ _ _ H) as [?|(i' & pe & ? & ? & ?)]; [by left|].
      right. exists (S i'), pe. split; [lia|]. done.
  - intros i l cs r IHc IHr q [|j] e; rewrite flatten_node_cons; cbn.
    + intros [= <-]. by left.
    + intros [H|[Hge H]]%lookup_app_Some.
      * right. destruct (IHc _ _ _ H) as [Hp|(i' & pe & ? & Hi' & ?)].
        -- exists 0, (mkFlat i l (Some cs) q). split; [lia|]. done.
        -- exists (S i'), pe. split; [lia|]. split; [|done].
           rewrite lookup_cons. by apply lookup_app_l_Some.
      * destruct (IHr _ _ _ H) as [?|(i' & pe & ? & Hi' & ?)]; [by left|].
        right. exists (S (length (flattenWithParent cs (Some i)) + i')), pe.
        split; [lia|]. split; [|done]. rewrite lookup_cons.
        rewrite lookup_app_r by lia. rewrite <- Hi'. f_equal. lia.
Qed.

(** X12: what flattening produces.  The ids of the entries are the ids of
    the tree in pre-order; the entries without parent are the roots, in
    order; and every parent reference names an entry that comes earlier in
    the list, so no reference dangles. *)
Theorem flattenWithParent_well_formed (tree : list MenuItem) :
  fid <$> flattenWithParent tree None = ids tree
  ∧ entries_under None (flattenWithParent tree None) = top_entries None tree
  ∧ parents_first (flattenWithParent tree None).
Proof.
  split; [apply flatten_fids|]. split.
  - rewrite entries_under_foreign by done. by rewrite decide_True.
  - intros j e p Hj Hp.
    destruct (flatten_parent_earlier tree None j e Hj)
      as [Hx|(i & pe & ? & ? & Hx)]; [congruence|].
    exists i, pe. split; [done|]. split; [done|]. congruence.
Qed.

Lemma createShells_lookup_last l k :
  createShells l !! k
  = (λ e, mkShell k (flabel e) []) <$> last (filter (λ e, fid e = k) l).
Proof.
  induction l as [|e l IH] using rev_ind; [done|].
  rewrite createShells_snoc, filter_app, filter_cons, filter_nil.
  case_decide as Hk.
  - subst k. by rewrite lookup_insert_eq, last_snoc.
  - rewrite lookup_insert_ne by done. by rewrite app_nil_r.
Qed.

(** X13: what the rebuild holds for any flat list, duplicates and dangling
    references included.  There is one shell per id, with the label of the
    last entry that has the id; its children are the references of the
    entries whose parent reference is that id (and is not the empty string),
    in list order; the roots are the entries whose parent reference is null,
    in list order. *)
Theorem rebuildTreeFromFlat_structure (flatList : list FlatItem) (k : string) :
  og_heap (rebuildTreeFromFlat flatList) !! k
  = (λ e, mkShell k (flabel e)
            (fid <$> filter (λ c, truthy (parentId c) = true
                                  ∧ parentId c = Some k) flatList))
    <$> last (filter (λ e, fid e = k) flatList)
  ∧ og_roots (rebuildTreeFromFlat flatList)
    = fid <$> entries_under None flatList.
Proof.
  split; [|apply rebuild_roots].
  rewrite rebuild_heap_lookup, createShells_lookup_last.
  by destruct (last _).
Qed.

Lemma readNode_id (m : gmap string Shell) :
  (∀ k sh, m !! k = Some sh → s_id sh = k) →
  ∀ fuel k n, readNode fuel m k = Some n → item_id n = k.
Proof.
  intros Hid [|f] k n; [done|]. cbn [readNode].
  destruct (m !! k) as [sh|] eqn:Hk; [|done]. cbn.
  destruct (mapM _ _); [|done]. cbn. intros [= <-]. cbn. by eapply Hid.
Qed.

Lemma readNode_ids_dom (m : gmap string Shell) :
  (∀ k sh, m !! k = Some sh → s_id sh = k) →
  ∀ fuel k n x, readNode fuel m k = Some n → x ∈ node_ids n →
    is_Some (m !! x).
Proof.
  intros Hid. induction fuel as [|f IH]; intros k n x; [done|].
  cbn [readNode]. destruct (m !! k) as [sh|] eqn:Hk; [|done]. cbn.
  destruct (mapM (readNode f m) (s_children sh)) as [cs|] eqn:Hcs; [|done].
  cbn. intros [= <-]. cbn [node_ids].
  intros [->|Hx]%elem_of_cons.
  - rewrite (Hid _ _ Hk). eauto.
  - apply elem_of_flat_map in Hx as (c & Hc & Hx).
    apply mapM_Some in Hcs.
    apply list_elem_of_lookup in Hc as [j Hj].
    destruct (Forall2_lookup_r _ _ _ _ _ Hcs Hj) as (k' & Hk' & Hread).
    by eapply IH.
Qed.

(** X14: the rebuilt structure of a list with distinct ids is a finite
    tree, also when parent references dangle or form cycles: reading it
    succeeds, its roots are the entries without parent, in list order, and
    all its ids are ids of the list. *)
Theorem rebuilt_is_tree (flatList : list FlatItem) :
  NoDup (fid <$> flatList) →
  ∃ t, rebuilt flatList = Some t
       ∧ item_id <$> t = fid <$> entries_under None flatList
       ∧ ids t ⊆ fid <$> flatList.
Proof.
  intros Hnd. destruct (rebuilt_total flatList Hnd) as [t Ht].
  exists t. split; [done|].
  assert (Hid : ∀ k sh, og_heap (rebuildTreeFromFlat flatList) !! k = Some sh →
                        s_id sh = k).
  { intros k sh Hk. by apply rebuild_heap_id in Hk as [? _]. }
  unfold rebuilt, readTree in Ht. apply mapM_Some in Ht.
  split.
  - rewrite <- rebuild_roots.
    induction Ht as [|r n rs ns Hr _ IH]; [done|].
    cbn [fmap list_fmap]. f_equal; [|done].
    by eapply readNode_id.
  - intros x Hx. apply elem_of_flat_map in Hx as (n & Hn & Hx).
    apply list_elem_of_lookup in Hn as [j Hj].
    destruct (Forall2_lookup_r _ _ _ _ _ Ht Hj) as (r & Hr & Hread).
    destruct (readNode_ids_dom _ Hid _ _ _ _ Hread Hx) as [sh Hsh].
    by apply rebuild_heap_id in Hsh as [_ ?].
Qed.

Lemma rebuilt_is_tree_witness :
  ∃ t, rebuilt [mkFlat "a" "A" None (Some "b"); mkFlat "b" "B" None (Some "a");
                mkFlat "r" "R" None None] = Some t
       ∧ item_id <$> t
         = fid <$> entries_under None
                     [mkFlat "a" "A" None (Some "b");
                      mkFlat "b" "B" None (Some "a"); mkFlat "r" "R" None None]
       ∧ ids t ⊆ fid <$> [mkFlat "a" "A" None (Some "b");
                          mkFlat "b" "B" None (Some "a");
                          mkFlat "r" "R" None None].
Proof.
  apply rebuilt_is_tree.
  apply (bool_decide_unpack _). vm_compute. exact I.
Defined.

(** ** More on the flat-list operations *)

Lemma spliceIn_perm {A} j (x : A) l : spliceIn j x l ≡ₚ x :: l.
Proof.
  unfold spliceIn. rewrite <- Permutation_middle. by rewrite take_drop.
Qed.

Lemma spliceOut_perm {A} d (l : list A) e :
  l !! d = Some e → e :: spliceOut d l ≡ₚ l.
Proof.
  intros H. unfold spliceOut. rewrite Permutation_middle.
  by rewrite take_drop_middle.
Qed.

Lemma findIndex_is_Some id l : is_Some (findIndex id l) ↔ id ∈ fid <$> l.
Proof.
  split.
  - intros [k (e & He & <- & _)%findIndex_Some].
    apply list_elem_of_fmap_2. by eapply list_elem_of_lookup_2.
  - intros Hin. destruct (findIndex id l) eqn:E; [eauto|].
    destruct (decide (id ∈ fid <$> l)) as [_|Hn]; [|done].
    apply list_elem_of_fmap in Hin as (e & -> & He).
    unfold findIndex in E.
    destruct (list_find _ l) as [[k x]|] eqn:E'; [done|].
    apply list_find_None in E'. rewrite Forall_forall in E'.
    by destruct (E' e He).
Qed.

Lemma reorder_perm flatList l' draggedItem targetId dragPosition :
  reorder flatList draggedItem targetId dragPosition = Some l' →
  l' ≡ₚ flatList.
Proof.
  unfold reorder. destruct draggedItem as [d|]; [|done].
  destruct (truthy (Some d) && negb (bool_decide (d = targetId))); [|done].
  destruct (findIndex d flatList) as [di|] eqn:Hd; [|done].
  destruct (findIndex targetId flatList) as [ti|]; [|done].
  destruct (flatList !! di) as [e|] eqn:He; [|done].
  cbn [mbind option_bind]. intros [= <-].
  rewrite spliceIn_perm. by apply spliceOut_perm.
Qed.



(** X16: when the reorder reports at all.  With a dragged id in the state,
    a list is reported exactly when that id is not the empty string, differs
    from the target, and both ids are in the list; with no dragged id
    nothing is reported. *)
Theorem reorder_guards (flatList : list FlatItem) (dragged targetId : string)
    (dragPosition : option DragPosition) :
  (is_Some (reorder flatList (Some dragged) targetId dragPosition)
   ↔ dragged ≠ "" ∧ dragged ≠ targetId
     ∧ dragged ∈ fid <$> flatList ∧ targetId ∈ fid <$> flatList)
  ∧ reorder flatList None targetId dragPosition = None.
Proof.
  split; [|done]. rewrite <- !findIndex_is_Some. unfold reorder.
  destruct (decide (dragged = "")) as [->|Hne].
  { cbn. split; [by intros []|tauto]. }
  rewrite (proj2 (truthy_Some dragged)) by done.
  destruct (decide (dragged = targetId)) as [->|Hdt].
  { rewrite bool_decide_eq_true_2 by done. cbn.
    split; [by intros []|tauto]. }
  rewrite bool_decide_eq_false_2 by done. cbn [andb negb].
  destruct (findIndex dragged flatList) as [di|] eqn:Hd.
  2:{ split; [by intros []|]. intros (_ & _ & [] & _). done. }
  destruct (findIndex targetId flatList) as [ti|] eqn:Ht.
  2:{ split; [by intros []|]. intros (_ & _ & _ & []). done. }
  apply findIndex_lookup in Hd as (e & He & _). rewrite He. cbn.
  split; [|eauto]. intros _. repeat split; eauto.
Qed.


(** ** The rebuild as a fold of insertions *)

Lemma filter_none {A} (P : A → Prop) `{!∀ x, Decision (P x)} (l : list A) :
  (∀ x, x ∈ l → ¬ P x) → filter P l = [].
Proof.
  induction l as [|a l IH]; intros Hall; [done|].
  rewrite filter_cons, decide_False by (apply Hall; by left).
  apply IH. intros x Hx. apply Hall. by right.
Qed.

Lemma heap_snoc_other l e k :
  k ≠ fid e →
  og_heap (rebuildTreeFromFlat (l ++ [e])) !! k
  = (λ sh, mkShell (s_id sh) (s_label sh)
       (s_children sh
        ++ (if decide (truthy (parentId e) = true ∧ parentId e = Some k)
            then [fid e] else [])))
    <$> og_heap (rebuildTreeFromFlat l) !! k.
Proof.
  intros Hk. rewrite !rebuild_heap_lookup, createShells_snoc.
  rewrite lookup_insert_ne by done.
  rewrite filter_app, filter_cons, filter_nil, fmap_app.
  destruct (createShells l !! k); [|done]. cbn. by case_decide.
Qed.

Lemma heap_snoc_self l e :
  (∀ c, c ∈ l ++ [e] → parentId c ≠ Some (fid e)) →
  og_heap (rebuildTreeFromFlat (l ++ [e])) !! fid e
  = Some (mkShell (fid e) (flabel e) []).
Proof.
  intros H. rewrite rebuild_heap_lookup, createShells_snoc, lookup_insert_eq.
  cbn. rewrite filter_none; [done|].
  intros c Hc [_ Hp]. by apply (H c).
Qed.

Lemma NoDup_ids_elem c cs : c ∈ cs → NoDup (ids cs) → NoDup (node_ids c).
Proof. apply NoDup_flat_map_elem. Qed.

Lemma readNode_S fuel (m : gmap string Shell) k :
  readNode (S fuel) m k
  = sh ← m !! k;
    cs ← mapM (readNode fuel m) (s_children sh);
    Some (mkItem (s_id sh) (s_label sh) (Some cs)).
Proof. reflexivity. Qed.

Lemma readNode_new_leaf l e fuel :
  (∀ c, c ∈ l ++ [e] → parentId c ≠ Some (fid e)) →
  readNode (S fuel) (og_heap (rebuildTreeFromFlat (l ++ [e]))) (fid e)
  = Some (shell_node e).
Proof.
  intros H. cbn [readNode]. rewrite heap_snoc_self by done. reflexivity.
Qed.

Lemma mapM_snoc {A B} (f : A → option B) ks x cs y :
  mapM f ks = Some cs → f x = Some y → mapM f (ks ++ [x]) = Some (cs ++ [y]).
Proof.
  intros Hks Hx. apply mapM_Some. apply mapM_Some in Hks.
  apply Forall2_app; [done|]. by constructor.
Qed.

Lemma readNode_snoc l e :
  fid e ∉ fid <$> l →
  (∀ c, c ∈ l ++ [e] → parentId c ≠ Some (fid e)) →
  parentId e ≠ Some "" →
  ∀ fuel k n,
    readNode fuel (og_heap (rebuildTreeFromFlat l)) k = Some n →
    NoDup (node_ids n) →
    readNode (S fuel) (og_heap (rebuildTreeFromFlat (l ++ [e]))) k
    = Some (attach_under e n).
Proof.
  intros Hfresh Hleaf Htruthy.
  induction fuel as [|f IH]; intros k n; [done|].
  rewrite (readNode_S f), (readNode_S (S f)).
  destruct (og_heap (rebuildTreeFromFlat l) !! k) as [sh|] eqn:Hk; [|done].
  cbn [mbind option_bind].
  destruct (mapM (readNode f (og_heap (rebuildTreeFromFlat l))) (s_children sh))
    as [cs|] eqn:Hcs; [|done].
  cbn [mbind option_bind]. intros [= <-].
  pose proof (rebuild_heap_id _ _ _ Hk) as [Hid Hin].
  assert (Hke : k ≠ fid e) by (intros ->; done).
  rewrite heap_snoc_other by done. rewrite Hk.
  cbn [fmap option_fmap option_map mbind option_bind s_id s_label s_children].
  rewrite Hid. cbn [node_ids]. intros [Hkc Hnd]%NoDup_cons.
  assert (Hkids : mapM (readNode (S f) (og_heap (rebuildTreeFromFlat (l ++ [e]))))
                    (s_children sh)
                  = Some (attach_under e <$> cs)).
  { apply mapM_Some in Hcs. clear Hk Hkc.
    induction Hcs as [|c n' ks ns Hc _ IHcs]; [done|].
    rewrite ids_cons in Hnd. apply NoDup_app in Hnd as (Hn1 & _ & Hn2).
    cbn [mapM]. rewrite (IH _ _ Hc Hn1). cbn [mbind option_bind].
    rewrite (IHcs Hn2). done. }
  unfold attach_under in *. destruct (parentId e) as [p|] eqn:Hp.
  - assert (Hpt : truthy (Some p) = true).
    { apply truthy_Some. intros ->. done. }
    cbn [insertInside]. destruct (decide (k = p)) as [->|Hkp].
    + rewrite decide_True by done.
      erewrite mapM_snoc; [| exact Hkids |].
      2:{ apply readNode_new_leaf. done. }
      cbn. do 3 f_equal. cbn [default from_option]. unfold Datatypes.id.
      f_equal. change (map (insertInside (shell_node e) p) cs = cs).
      by apply insertInside_absent.
    + rewrite decide_False by (intros [_ [= ->]]; done).
      rewrite app_nil_r, Hkids. done.
  - rewrite decide_False by (intros [_ ?]; done).
    rewrite app_nil_r, Hkids. cbn. do 3 f_equal.
    clear. induction cs; [done|]. cbn. by f_equal.
Qed.

Lemma parents_first_app l1 l2 : parents_first (l1 ++ l2) → parents_first l1.
Proof.
  intros Hpf j e p Hj Hp.
  destruct (Hpf j e p) as (i & pe & Hi & Hpe & Hf);
    [by apply lookup_app_l_Some|done|].
  exists i, pe. split; [done|]. split; [|done].
  rewrite lookup_app_l in Hpe; [done|]. apply lookup_lt_Some in Hj. lia.
Qed.

Lemma parents_first_parent_in l e p :
  parents_first (l ++ [e]) → parentId e = Some p → p ∈ fid <$> l.
Proof.
  intros Hpf Hp.
  destruct (Hpf (length l) e p) as (i & pe & Hi & Hpe & <-);
    [by rewrite list_lookup_middle|done|].
  rewrite lookup_app_l in Hpe by done.
  apply list_elem_of_fmap_2. by eapply list_elem_of_lookup_2.
Qed.

Lemma parents_first_last_childless l e :
  fid e ∉ fid <$> l → parents_first (l ++ [e]) →
  ∀ c, c ∈ l ++ [e] → parentId c ≠ Some (fid e).
Proof.
  intros Hfresh Hpf c Hc Hp. apply list_elem_of_lookup in Hc as [j Hj].
  destruct (Hpf j c _ Hj Hp) as (i & pe & Hi & Hpe & Hf).
  apply Hfresh. rewrite <- Hf. apply list_elem_of_fmap_2.
  apply lookup_lt_Some in Hj. rewrite length_app in Hj. cbn in Hj.
  rewrite lookup_app_l in Hpe by lia. by eapply list_elem_of_lookup_2.
Qed.

Lemma attach_under_root e n : parentId e = None → attach_under e n = n.
Proof. unfold attach_under. by intros ->. Qed.

(** The rebuild of a list in which parents come first, with distinct ids,
    none of them empty, is the tree obtained by attaching the entries one
    after the other. *)
Lemma rebuilt_fold l :
  NoDup (fid <$> l) → "" ∉ fid <$> l → parents_first l →
  rebuilt l = Some (foldl attach [] l)
  ∧ ids (foldl attach [] l) ≡ₚ fid <$> l.
Proof.
  induction l as [|e l IH] using rev_ind; intros Hnd Hne Hpf; [done|].
  rewrite fmap_app in Hnd, Hne. cbn [fmap list_fmap] in Hnd, Hne.
  apply NoDup_app in Hnd as (Hnd & Hd & _).
  rewrite not_elem_of_app in Hne. destruct Hne as [Hne _].
  assert (Hfresh : fid e ∉ fid <$> l).
  { intros Hx. apply (Hd _ Hx). by left. }
  destruct (IH Hnd Hne (parents_first_app _ _ Hpf)) as [Hr Hids].
  rewrite foldl_snoc. set (t := foldl attach [] l) in *.
  assert (HNt : NoDup (ids t)) by (by rewrite Hids).
  pose proof (parents_first_last_childless _ _ Hfresh Hpf) as Hleaf.
  assert (Htr : parentId e ≠ Some "").
  { intros Hp. apply Hne. by eapply parents_first_parent_in. }
  assert (Hmap : mapM (readNode (S (S (length l)))
                         (og_heap (rebuildTreeFromFlat (l ++ [e]))))
                   (og_roots (rebuildTreeFromFlat l))
                 = Some (attach_under e <$> t)).
  { unfold rebuilt, readTree in Hr. apply mapM_Some in Hr. apply mapM_Some.
    clear Hids IH. clearbody t. revert HNt.
    induction Hr as [|r n rs ns Hrn _ IHr]; intros HNt; [constructor|].
    rewrite ids_cons in HNt. apply NoDup_app in HNt as (Hn1 & _ & Hn2).
    cbn [fmap list_fmap]. constructor; [|by apply IHr].
    by apply readNode_snoc. }
  split.
  - unfold rebuilt, readTree. rewrite length_app. cbn [length].
    replace (S (length l + 1)) with (S (S (length l))) by lia.
    rewrite rebuild_roots, entries_under_app, fmap_app, <- rebuild_roots.
    unfold attach. destruct (parentId e) as [p|] eqn:Hp.
    + unfold entries_under at 1. rewrite filter_cons, decide_False by congruence.
      rewrite filter_nil, app_nil_r. rewrite Hmap.
      unfold attach_under. rewrite Hp. done.
    + unfold entries_under at 1. rewrite filter_cons, decide_True by congruence.
      rewrite filter_nil. cbn [fmap list_fmap].
      erewrite mapM_snoc; [| exact Hmap | by apply readNode_new_leaf].
      do 2 f_equal. clear -Hp. induction t as [|n t IHt]; [done|].
      cbn [fmap list_fmap]. by rewrite attach_under_root, IHt.
  - rewrite fmap_app. cbn [fmap list_fmap]. unfold attach.
    destruct (parentId e) as [p|] eqn:Hp.
    + rewrite insertItemInTree_ids_perm; [by rewrite Hids|done|].
      rewrite Hids. by eapply parents_first_parent_in.
    + rewrite ids_app, ids_singleton. by rewrite Hids.
Qed.

Lemma flatten_parents_first tree :
  parents_first (flattenWithParent tree None).
Proof.
  intros j e p Hj Hp.
  destruct (flatten_parent_earlier tree None j e Hj)
    as [Hx|(i & pe & ? & ? & Hx)]; [congruence|].
  exists i, pe. split; [done|]. split; [done|]. congruence.
Qed.

(** ** Promote and demote keep the list well formed *)

Lemma reparented_fids l l' : reparented l l' → fid <$> l' = fid <$> l.
Proof.
  intros [Hlen Hpt]. apply list_eq. intros i. rewrite !list_lookup_fmap.
  destruct (l !! i) as [e|] eqn:He.
  - destruct (Hpt _ _ He) as (e' & -> & Hf & _). cbn. by rewrite Hf.
  - apply lookup_ge_None in He. rewrite lookup_ge_None_2 by lia. done.
Qed.

Lemma reparented_parents_first l l' :
  reparented l l' → parents_first l → parents_first l'.
Proof.
  intros [Hlen Hpt] Hpf j e' p Hj Hp.
  destruct (lookup_lt_is_Some_2 l j) as [e He].
  { apply lookup_lt_Some in Hj. lia. }
  destruct (Hpt _ _ He) as (e'' & Hj' & Hf & Hpar).
  assert (e'' = e') as -> by congruence.
  assert (Hearlier : ∃ i0 pe, i0 < j ∧ l !! i0 = Some pe ∧ fid pe = p).
  { destruct Hpar as [Hsame|[Hnone|(i0 & pe & ? & ? & Hx)]].
    - apply (Hpf j e); congruence.
    - congruence.
    - exists i0, pe. split; [done|]. split; [done|]. congruence. }
  destruct Hearlier as (i0 & pe & Hi0 & Hpe & Hfp).
  destruct (Hpt _ _ Hpe) as (pe' & Hpe' & Hfpe & _).
  exists i0, pe'. split; [done|]. split; [done|]. congruence.
Qed.

Lemma demote_reparented l id l' : demote l id = Some l' → reparented l l'.
Proof.
  unfold demote. destruct (findIndex id l) as [[|k]|] eqn:Hk; [done| |done].
  destruct (l !! k) as [prev|] eqn:Hprev; [|done].
  destruct (l !! S k) as [item|] eqn:Hitem; [|done].
  cbn [mbind option_bind]. intros [= <-].
  assert (Hl1 : reparented l (<[S k := set_parentId (Some (fid prev)) item]> l)).
  { split; [by rewrite length_insert|]. intros i e He.
    rewrite list_lookup_insert. case_decide as Hi.
    - destruct Hi as [<- _]. eexists. split; [done|].
      assert (e = item) as -> by congruence. split; [done|].
      right. right. exists k, prev. split; [lia|]. done.
    - exists e. split; [done|]. split; [done|]. by left. }
  destruct (fchildren prev); [done|].
  destruct Hl1 as [Hlen Hpt]. split; [by rewrite length_alter|].
  intros i e He. destruct (Hpt _ _ He) as (e' & He' & Hf & Hpar).
  rewrite list_lookup_alter. case_decide as Hi.
  - subst i. rewrite He'. cbn. eexists. split; [done|]. by split.
  - exists e'. by split.
Qed.

Lemma promote_reparented l id l' :
  parents_first l → promote l id = Some l' → reparented l l'.
Proof.
  intros Hpf. unfold promote.
  destruct (list_find _ l) as [[k item]|] eqn:Hfind; [|done].
  destruct (truthy (parentId item)) eqn:Ht; [|done].
  intros [= <-]. apply list_find_Some in Hfind as (Hk & _ & _).
  split; [by rewrite length_insert|]. intros i e He.
  rewrite list_lookup_insert. case_decide as Hi; [|exists e; by auto].
  destruct Hi as [<- _]. assert (e = item) as -> by congruence.
  eexists. split; [done|]. split; [done|]. cbn [parentId set_parentId].
  destruct (parentId item) as [p|] eqn:Hp; [|by auto].
  unfold or_null.
  destruct (truthy (find p l ≫= parentId)) eqn:Hg; [|by auto].
  destruct (find p l) as [pe|] eqn:Hpe; [|done].
  cbn [mbind option_bind] in *.
  destruct (parentId pe) as [g|] eqn:Hgp; [|done].
  unfold find in Hpe.
  destruct (list_find _ l) as [[ip pe0]|] eqn:Hfp; [|done].
  cbn in Hpe. injection Hpe as ->.
  apply list_find_Some in Hfp as (Hip & Hfid & Hfirst).
  destruct (Hpf _ _ _ Hk Hp) as (i1 & pe1 & Hi1 & Hpe1 & Hf1).
  assert (ip ≤ i1).
  { destruct (decide (ip ≤ i1)); [done|].
    destruct (Hfirst i1 pe1 Hpe1); [lia|done]. }
  destruct (Hpf _ _ _ Hip Hgp) as (ig & ge & Hig & Hge & Hfg).
  right. right. exists ig, ge. split; [lia|]. split; [done|]. by rewrite Hfg.
Qed.

(** Rebuilding a reparented list neither loses nor duplicates an id. *)
Lemma rebuilt_reparented l l' :
  NoDup (fid <$> l) → "" ∉ fid <$> l → parents_first l → reparented l l' →
  ∃ t, readTree (S (length l)) (rebuildTreeFromFlat l') = Some t
       ∧ t = foldl attach [] l' ∧ ids t ≡ₚ fid <$> l.
Proof.
  intros Hnd Hne Hpf Hre.
  pose proof (reparented_fids _ _ Hre) as Hf.
  pose proof (reparented_parents_first _ _ Hre Hpf) as Hpf'.
  destruct (rebuilt_fold l') as [Hr Hids]; [by rewrite Hf..|done|].
  exists (foldl attach [] l'). destruct Hre as [Hlen _].
  unfold rebuilt in Hr. rewrite Hlen in Hr. by rewrite Hids, Hf.
Qed.

(** ** The rebuild of a permuted list *)

Lemma mapM_perm {A B} (g : A → option B) ks ks' :
  ks ≡ₚ ks' → ∀ cs, mapM g ks = Some cs →
  ∃ cs', mapM g ks' = Some cs' ∧ cs' ≡ₚ cs.
Proof.
  induction 1 as [|x ks ks' _ IH|x y ks|ks ks1 ks2 _ IH1 _ IH2]; intros cs.
  - intros [= <-]. by exists [].
  - cbn [mapM]. destruct (g x) as [b|]; [|done]. cbn [mbind option_bind].
    destruct (mapM g ks) as [bs|]; [|done]. cbn [mbind option_bind].
    intros [= <-]. destruct (IH _ eq_refl) as (bs' & -> & Hp).
    cbn. exists (b :: bs'). split; [done|]. by constructor.
  - cbn [mapM]. destruct (g y) as [b|]; [|done]. cbn [mbind option_bind].
    destruct (g x) as [a|]; [|done]. cbn [mbind option_bind].
    destruct (mapM g ks) as [bs|]; [|done]. cbn [mbind option_bind].
    intros [= <-]. cbn. exists (a :: b :: bs). split; [done|]. constructor.
  - intros Hcs. destruct (IH1 _ Hcs) as (cs1 & H1 & Hp1).
    destruct (IH2 _ H1) as (cs2 & H2 & Hp2).
    exists cs2. split; [done|]. by etrans.
Qed.

Lemma mapM_pointwise_ids (g g' : string → option MenuItem) ks cs :
  mapM g ks = Some cs →
  (∀ k n, k ∈ ks → g k = Some n →
     ∃ n', g' k = Some n' ∧ node_ids n' ≡ₚ node_ids n) →
  ∃ cs', mapM g' ks = Some cs' ∧ ids cs' ≡ₚ ids cs.
Proof.
  intros Hcs%mapM_Some.
  induction Hcs as [|k n ks cs Hk _ IH]; intros Hpt; [by exists []|].
  destruct (Hpt k n) as (n' & Hn' & Hp); [by left|done|].
  destruct IH as (cs' & Hcs' & Hpc).
  { intros k0 n0 Hin. apply Hpt. by right. }
  exists (n' :: cs'). cbn [mapM]. rewrite Hn', Hcs'. split; [done|].
  rewrite !ids_cons. by rewrite Hp, Hpc.
Qed.

Lemma ids_perm t t' : t ≡ₚ t' → ids t ≡ₚ ids t'.
Proof. intros Hp. unfold ids. by apply Permutation_flat_map. Qed.

Lemma createShells_perm l l' k :
  NoDup (fid <$> l) → l ≡ₚ l' → createShells l' !! k = createShells l !! k.
Proof.
  intros Hnd Hp.
  assert (Hnd' : NoDup (fid <$> l')) by (by rewrite <- Hp).
  destruct (decide (k ∈ fid <$> l)) as [Hin|Hout].
  - apply list_elem_of_fmap in Hin as (e & -> & He).
    rewrite (createShells_lookup_elem l e) by done.
    apply createShells_lookup_elem; [done|]. by rewrite <- Hp.
  - rewrite (createShells_lookup_None l) by done.
    apply createShells_lookup_None. by rewrite <- Hp.
Qed.

Lemma readNode_perm l l' :
  NoDup (fid <$> l) → l ≡ₚ l' →
  ∀ fuel k n, readNode fuel (og_heap (rebuildTreeFromFlat l)) k = Some n →
    ∃ n', readNode fuel (og_heap (rebuildTreeFromFlat l')) k = Some n'
          ∧ node_ids n' ≡ₚ node_ids n.
Proof.
  intros Hnd Hp. induction fuel as [|f IH]; intros k n; [done|].
  rewrite !readNode_S, !rebuild_heap_lookup.
  rewrite (createShells_perm l l') by done.
  destruct (createShells l !! k) as [sh|]; [|done].
  cbn [fmap option_fmap option_map mbind option_bind s_children s_id s_label].
  match goal with |- context [mapM ?g (fid <$> filter ?P l)] =>
    destruct (mapM g (fid <$> filter P l)) as [cs|] eqn:Hcs; [|done] end.
  cbn [mbind option_bind]. intros [= <-].
  destruct (mapM_pointwise_ids _
              (readNode f (og_heap (rebuildTreeFromFlat l'))) _ _ Hcs)
    as (cs1 & Hcs1 & Hp1).
  { intros k0 n0 _. apply IH. }
  destruct (mapM_perm (readNode f (og_heap (rebuildTreeFromFlat l')))
              (fid <$> filter (λ e, truthy (parentId e) = true
                                    ∧ parentId e = Some k) l)
              (fid <$> filter (λ e, truthy (parentId e) = true
                                    ∧ parentId e = Some k) l'))
    with cs1 as (cs2 & Hcs2 & Hp2); [by rewrite Hp|done|].
  rewrite Hcs2. cbn [mbind option_bind]. eexists. split; [done|].
  cbn [node_ids]. constructor.
  change (ids cs2 ≡ₚ ids cs). rewrite <- Hp1. by apply ids_perm.
Qed.

(** Reading the rebuild of a permutation of a list with distinct ids gives
    the same ids as reading the rebuild of the list. *)
Lemma rebuilt_perm l l' t :
  NoDup (fid <$> l) → l ≡ₚ l' → rebuilt l = Some t →
  ∃ t', rebuilt l' = Some t' ∧ ids t' ≡ₚ ids t.
Proof.
  intros Hnd Hp. unfold rebuilt, readTree. rewrite <- (Permutation_length Hp). intros Ht.
  destruct (mapM_pointwise_ids _
              (readNode (S (length l)) (og_heap (rebuildTreeFromFlat l')))
              _ _ Ht) as (t1 & Ht1 & Hp1).
  { intros k n _. by apply readNode_perm. }
  destruct (mapM_perm (readNode (S (length l))
                         (og_heap (rebuildTreeFromFlat l')))
              (og_roots (rebuildTreeFromFlat l))
              (og_roots (rebuildTreeFromFlat l')))
    with t1 as (t2 & Ht2 & Hp2); [|done|].
  { rewrite !rebuild_roots. unfold entries_under. by rewrite Hp. }
  exists t2. split; [done|]. rewrite <- Hp1. by apply ids_perm.
Qed.

(** X18: the rebuild as a fold of insertions.  For a flat list with
    distinct ids, none of them the empty string, in which every parent
    reference names an earlier entry, the rebuilt structure is the tree
    obtained by taking the entries in list order and inserting each one,
    without children, inside its parent with the insertion of the
    drag-and-drop variant, or appending it to the roots when it has no
    parent; the ids of that tree are the ids of the list, each once. *)
Theorem rebuild_is_fold_of_insertions (flatList : list FlatItem) :
  NoDup (fid <$> flatList) → "" ∉ fid <$> flatList → parents_first flatList →
  rebuilt flatList = Some (foldl attach [] flatList)
  ∧ ids (foldl attach [] flatList) ≡ₚ fid <$> flatList
  ∧ NoDup (ids (foldl attach [] flatList)).
Proof.
  intros Hnd Hne Hpf.
  destruct (rebuilt_fold flatList Hnd Hne Hpf) as [Hr Hids].
  split; [done|]. split; [done|]. by rewrite Hids.
Qed.

Lemma rebuild_is_fold_of_insertions_witness :
  rebuilt (flattenWithParent chain None)
  = Some (foldl attach [] (flattenWithParent chain None))
  ∧ ids (foldl attach [] (flattenWithParent chain None))
    ≡ₚ fid <$> flattenWithParent chain None
  ∧ NoDup (ids (foldl attach [] (flattenWithParent chain None))).
Proof.
  apply rebuild_is_fold_of_insertions.
  - apply (bool_decide_unpack _). vm_compute. exact I.
  - apply (bool_decide_unpack _). vm_compute. exact I.
  - apply flatten_parents_first.
Defined.

(** X19: demote loses and duplicates nothing.  On a tree with distinct ids,
    none of them the empty string, the structure that [handleDemote]
    reports reads as a finite tree whose ids are the ids of the input, each
    once. *)
Theorem handleDemote_conserves_ids
    (items : list MenuItem) (id : string) (g : ObjGraph) :
  NoDup (ids items) → "" ∉ ids items →
  handleDemote items id = Some g →
  ∃ t, readTree (S (length (ids items))) g = Some t ∧ ids t ≡ₚ ids items.
Proof.
  intros Hnd Hne. unfold handleDemote.
  destruct (demote _ id) as [l'|] eqn:Hd; [|done]. intros [= <-].
  destruct (rebuilt_reparented (flattenWithParent items None) l')
    as (t & Ht & _ & Hids).
  - by rewrite flatten_fids.
  - by rewrite flatten_fids.
  - apply flatten_parents_first.
  - by eapply demote_reparented.
  - exists t. rewrite flatten_length, flatten_fids in *. done.
Qed.

Lemma handleDemote_conserves_ids_witness :
  ∃ t, readTree (S (length (ids nested_then_root)))
         (rebuildTreeFromFlat
            [mkFlat "A" "A" (Some [leaf "a1" "A1"]) None;
             mkFlat "a1" "A1" (Some []) (Some "A");
             mkFlat "B" "B" None (Some "a1")]) = Some t
       ∧ ids t ≡ₚ ids nested_then_root.
Proof.
  apply (handleDemote_conserves_ids nested_then_root "B").
  - apply (bool_decide_unpack _). vm_compute. exact I.
  - apply (bool_decide_unpack _). vm_compute. exact I.
  - reflexivity.
Defined.

(** X20: promote loses and duplicates nothing.  On a tree with distinct
    ids, none of them the empty string, the structure that [handlePromote]
    reports reads as a finite tree whose ids are the ids of the input, each
    once. *)
Theorem handlePromote_conserves_ids
    (items : list MenuItem) (id : string) (g : ObjGraph) :
  NoDup (ids items) → "" ∉ ids items →
  handlePromote items id = Some g →
  ∃ t, readTree (S (length (ids items))) g = Some t ∧ ids t ≡ₚ ids items.
Proof.
  intros Hnd Hne. unfold handlePromote.
  destruct (promote _ id) as [l'|] eqn:Hd; [|done]. intros [= <-].
  destruct (rebuilt_reparented (flattenWithParent items None) l')
    as (t & Ht & _ & Hids).
  - by rewrite flatten_fids.
  - by rewrite flatten_fids.
  - apply flatten_parents_first.
  - eapply promote_reparented; [apply flatten_parents_first|done].
  - exists t. rewrite flatten_length, flatten_fids in *. done.
Qed.

Lemma handlePromote_conserves_ids_witness :
  ∃ t, readTree (S (length (ids chain)))
         (rebuildTreeFromFlat
            [mkFlat "A" "A" (Some [mkItem "B" "B" (Some [leaf "C" "C"])]) None;
             mkFlat "B" "B" (Some [leaf "C" "C"]) (Some "A");
             mkFlat "C" "C" None (Some "A")]) = Some t
       ∧ ids t ≡ₚ ids chain.
Proof.
  apply (handlePromote_conserves_ids chain "C").
  - apply (bool_decide_unpack _). vm_compute. exact I.
  - apply (bool_decide_unpack _). vm_compute. exact I.
  - reflexivity.
Defined.

(** X21: a reorder loses and duplicates nothing.  On a tree with distinct
    ids, none of them the empty string, the structure that the [handleDrop]
    of the flat-list variant reports reads as a finite tree whose ids are
    the ids of the input, each once, wherever the dragged entry lands in the
    list. *)
Theorem reorder_conserves_ids
    (items : list MenuItem) (draggedItem : option string)
    (dragPosition : option DragPosition) (targetId : string) (g : ObjGraph) :
  NoDup (ids items) → "" ∉ ids items →
  handleDrop items draggedItem dragPosition targetId = Some g →
  ∃ t, readTree (S (length (ids items))) g = Some t ∧ ids t ≡ₚ ids items.
Proof.
  intros Hnd Hne. unfold handleDrop.
  destruct (reorder _ _ _ _) as [l'|] eqn:Hr; [|done]. intros [= <-].
  apply reorder_perm in Hr. symmetry in Hr.
  destruct (rebuilt_fold (flattenWithParent items None)) as [Ht Hids].
  { by rewrite flatten_fids. }
  { by rewrite flatten_fids. }
  { apply flatten_parents_first. }
  destruct (rebuilt_perm _ l' _ ltac:(by rewrite flatten_fids) Hr Ht)
    as (t' & Ht' & Hp).
  exists t'. unfold rebuilt in Ht'.
  rewrite <- (Permutation_length Hr), flatten_length in Ht'.
  split; [done|]. by rewrite Hp, Hids, flatten_fids.
Qed.

Lemma reorder_conserves_ids_witness :
  ∃ t, readTree (S (length (ids chain)))
         (rebuildTreeFromFlat
            [mkFlat "C" "C" None (Some "B");
             mkFlat "A" "A" (Some [mkItem "B" "B" (Some [leaf "C" "C"])]) None;
             mkFlat "B" "B" (Some [leaf "C" "C"]) (Some "A")]) = Some t
       ∧ ids t ≡ₚ ids chain.
Proof.
  apply (reorder_conserves_ids chain (Some "C") (Some above) "A").
  - apply (bool_decide_unpack _). vm_compute. exact I.
  - apply (bool_decide_unpack _). vm_compute. exact I.
  - reflexivity.
Defined.

(** X22: where a reorder puts the dragged entry.  With both ids in the
    list, different from each other and the dragged id not empty, a drop on
    the upper half puts the dragged entry right before the target; a drop
    on the lower half puts it right after the target when it came from
    after the target, and right before the target, one place short, when it
    came from before the target. *)
Theorem reorder_landing
    (flatList : list FlatItem) (dragged targetId : string) (d t : nat) :
  dragged ≠ "" → dragged ≠ targetId →
  findIndex dragged flatList = Some d → findIndex targetId flatList = Some t →
  ∃ la lb,
    reorder flatList (Some dragged) targetId (Some above) = Some la
    ∧ immediately_before dragged targetId (fid <$> la)
    ∧ reorder flatList (Some dragged) targetId (Some below) = Some lb
    ∧ if Nat.ltb d t
      then immediately_before dragged targetId (fid <$> lb)
      else immediately_before targetId dragged (fid <$> lb).
Proof.
  intros Hne Hdt Hd Ht.
  destruct (reorder_above_lands_before _ _ _ _ _ Hne Hdt Hd Ht)
    as (la & Ha & Hia).
  exists la.
  assert (d ≠ t).
  { intros ->. apply findIndex_lookup in Hd as (e & He & <-).
    apply findIndex_lookup in Ht as (e' & He' & <-). congruence. }
  destruct (Nat.ltb d t) eqn:Hlt.
  - apply Nat.ltb_lt in Hlt.
    destruct (reorder_below_forward_lands_before _ _ _ _ _ Hne Hdt Hd Ht Hlt)
      as (lb & Hb & Hib).
    by exists lb.
  - apply Nat.ltb_ge in Hlt.
    destruct (reorder_below_backward_lands_after _ _ _ _ _ Hne Hdt Hd Ht)
      as (lb & Hb & Hib); [lia|].
    by exists lb.
Qed.

Lemma reorder_landing_witness :
  ∃ la lb,
    reorder three_roots (Some "c") "a" (Some above) = Some la
    ∧ immediately_before "c" "a" (fid <$> la)
    ∧ reorder three_roots (Some "c") "a" (Some below) = Some lb
    ∧ if Nat.ltb 2 0
      then immediately_before "c" "a" (fid <$> lb)
      else immediately_before "a" "c" (fid <$> lb).
Proof.
  apply (reorder_landing three_roots "c" "a" 2 0); [done|done|reflexivity..].
Defined.
